(** * Kiro-Micro-Tools colour palette picker: the colour engine in Rocq

    A shallow embedding of the palette picker's core
    ([src/utils/colorConversions.ts], [harmonyRules.ts],
    [paletteGenerator.ts], [urlState.ts], [contrastCalculations.ts]) and the
    properties its specification states about it.

    Conventions of the embedding.
    - A JavaScript string is a [string]: a sequence of code units below 256.
      The URL codec reads the same type as the UTF-8 bytes of its text; every
      character the codec inspects is ASCII.
    - A JavaScript number is a [number]: [NaN] or an exact rational.  The
      rounding of binary64 arithmetic and the infinities are outside the
      model; a division by zero, which would give an infinity, gives [NaN].
    - [Math.pow] with exponent 2.4 has no exact executable counterpart, so the
      contrast engine is stated over the real numbers.
    - [Math.random] is a stream of draws threaded through a state monad. *)

From Stdlib Require Import ZArith QArith Qround Bool List Lia.
From Stdlib Require Import Ascii String.
From Stdlib Require Import Reals Psatz.
Import ListNotations.

Local Open Scope string_scope.
Local Open Scope Z_scope.

(* ================================================================== *)
(** ** Strings: the [String.prototype] methods the sources call *)

Module JsString.

(** [s.replace(/^#/, '')]: drop one leading [#]. *)
Definition strip_hash (s : string) : string :=
  match s with
  | String "#" rest => rest
  | _ => s
  end.

(** [s.replace('#', '')]: drop the first [#], wherever it is. *)
Fixpoint remove_first_hash (s : string) : string :=
  match s with
  | EmptyString => EmptyString
  | String c rest =>
      if Ascii.eqb c "#" then rest else String c (remove_first_hash rest)
  end.

(** [s.substring(a, b)]: the arguments are swapped when [a > b], and both
    are capped by the length. *)
Definition js_substring (s : string) (a b : nat) : string :=
  String.substring (Nat.min a b) (Nat.max a b - Nat.min a b) s.

Definition is_lower (c : ascii) : bool :=
  let n := nat_of_ascii c in (97 <=? n)%nat && (n <=? 122)%nat.

Definition upper_char (c : ascii) : ascii :=
  if is_lower c then ascii_of_nat (nat_of_ascii c - 32) else c.

(** [s.toUpperCase()] on the ASCII letters; every string the sources put
    in upper case is made of hexadecimal digits, [#] and the letters of
    [NaN]. *)
Fixpoint toUpperCase (s : string) : string :=
  match s with
  | EmptyString => EmptyString
  | String c rest => String (upper_char c) (toUpperCase rest)
  end.

Fixpoint repeat_char (c : ascii) (n : nat) : string :=
  match n with
  | O => EmptyString
  | S k => String c (repeat_char c k)
  end.

(** [s.padStart(n, c)] for a one-character filler. *)
Definition padStart (s : string) (n : nat) (c : ascii) : string :=
  repeat_char c (n - String.length s) ++ s.

(** [s.split(sep)] for a one-character separator: never an empty list. *)
Fixpoint split (sep : ascii) (s : string) : list string :=
  match s with
  | EmptyString => [EmptyString]
  | String c rest =>
      if Ascii.eqb c sep then EmptyString :: split sep rest
      else match split sep rest with
           | [] => [String c EmptyString]
           | w :: ws => String c w :: ws
           end
  end.

(** [xs.join(sep)] *)
Fixpoint join (sep : string) (xs : list string) : string :=
  match xs with
  | [] => EmptyString
  | [x] => x
  | x :: rest => x ++ sep ++ join sep rest
  end.

(** [s[i]]: the character at [i], [None] for [undefined]. *)
Definition char_at (s : string) (i : nat) : option ascii := String.get i s.

Definition is_digit (c : ascii) : bool :=
  let n := nat_of_ascii c in (48 <=? n)%nat && (n <=? 57)%nat.

Definition is_upper_hex (c : ascii) : bool :=
  let n := nat_of_ascii c in (65 <=? n)%nat && (n <=? 70)%nat.

Definition is_lower_hex (c : ascii) : bool :=
  let n := nat_of_ascii c in (97 <=? n)%nat && (n <=? 102)%nat.

(** The character class [[0-9A-Fa-f]]. *)
Definition is_hex_char (c : ascii) : bool :=
  is_digit c || is_upper_hex c || is_lower_hex c.

(** The members of that class, listed. *)
Definition hex_chars : list ascii :=
  list_ascii_of_string "0123456789ABCDEFabcdef".

(** The character class [[0-9A-F]]. *)
Definition is_upper_hex_char (c : ascii) : bool :=
  is_digit c || is_upper_hex c.

Fixpoint string_forallb (p : ascii -> bool) (s : string) : bool :=
  match s with
  | EmptyString => true
  | String c rest => p c && string_forallb p rest
  end.

(** [/^[0-9A-Fa-f]{6}$/.test(s)] *)
Definition is_hex6 (s : string) : bool :=
  (String.length s =? 6)%nat && string_forallb is_hex_char s.

(** [/^[01]{5}$/.test(s)] *)
Definition is_bit (c : ascii) : bool := Ascii.eqb c "0" || Ascii.eqb c "1".

Definition is_locks5 (s : string) : bool :=
  (String.length s =? 5)%nat && string_forallb is_bit s.

(** [/^#[0-9A-F]{6}$/.test(s)]: the canonical form of [Color.hex]. *)
Definition is_canonical_hex (s : string) : bool :=
  match s with
  | String "#" rest =>
      (String.length rest =? 6)%nat && string_forallb is_upper_hex_char rest
  | _ => false
  end.

End JsString.

(* ================================================================== *)
(** ** Numbers *)

Module JsNumber.

Inductive number : Type :=
| NaN
| Fin (q : Q).

Definition of_Z (z : Z) : number := Fin (inject_Z z).

Definition lift2 (f : Q -> Q -> Q) (a b : number) : number :=
  match a, b with
  | Fin x, Fin y => Fin (f x y)
  | _, _ => NaN
  end.

Definition add : number -> number -> number := lift2 Qplus.
Definition sub : number -> number -> number := lift2 Qminus.
Definition mul : number -> number -> number := lift2 Qmult.

(** [a / b]; a zero divisor is outside the model (see the header). *)
Definition div (a b : number) : number :=
  match a, b with
  | Fin x, Fin y => if Qeq_bool y 0 then NaN else Fin (x / y)
  | _, _ => NaN
  end.

(** Truncation toward zero. *)
Definition Qtrunc (x : Q) : Z :=
  if Qle_bool 0 x then Qfloor x else Qceiling x.

(** [a % b]: the remainder has the sign of the dividend. *)
Definition rem (a b : number) : number :=
  match a, b with
  | Fin x, Fin y =>
      if Qeq_bool y 0 then NaN else Fin (x - y * inject_Z (Qtrunc (x / y)))
  | _, _ => NaN
  end.

(** Comparisons: every comparison with [NaN] is false. *)
Definition lt (a b : number) : bool :=
  match a, b with
  | Fin x, Fin y => negb (Qle_bool y x)
  | _, _ => false
  end.

Definition le (a b : number) : bool :=
  match a, b with
  | Fin x, Fin y => Qle_bool x y
  | _, _ => false
  end.

Definition gt (a b : number) : bool := lt b a.

(** [a === b] *)
Definition strict_eq (a b : number) : bool :=
  match a, b with
  | Fin x, Fin y => Qeq_bool x y
  | _, _ => false
  end.

(** [a !== b] *)
Definition strict_neq (a b : number) : bool := negb (strict_eq a b).

(** [Math.max(a, b)] and [Math.min(a, b)]: [NaN] when either is. *)
Definition Math_max (a b : number) : number :=
  match a, b with
  | Fin x, Fin y => if Qle_bool x y then Fin y else Fin x
  | _, _ => NaN
  end.

Definition Math_min (a b : number) : number :=
  match a, b with
  | Fin x, Fin y => if Qle_bool x y then Fin x else Fin y
  | _, _ => NaN
  end.

Definition Math_max3 (a b c : number) : number := Math_max (Math_max a b) c.
Definition Math_min3 (a b c : number) : number := Math_min (Math_min a b) c.

(** [Math.floor] and [Math.round] (halves go up). *)
Definition Math_floor (a : number) : number :=
  match a with
  | Fin x => of_Z (Qfloor x)
  | NaN => NaN
  end.

Definition Math_round (a : number) : number :=
  match a with
  | Fin x => of_Z (Qfloor (x + (1 # 2)))
  | NaN => NaN
  end.

(** *** [parseInt(s, 16)] *)

(** White space that [parseInt] skips, among the code units below 256. *)
Definition is_white_space (c : ascii) : bool :=
  let n := nat_of_ascii c in
  ((9 <=? n)%nat && (n <=? 13)%nat) || (n =? 32)%nat || (n =? 160)%nat.

Fixpoint trim_start (s : string) : string :=
  match s with
  | String c rest => if is_white_space c then trim_start rest else s
  | EmptyString => s
  end.

Definition hex_digit_value (c : ascii) : option Z :=
  let n := Z.of_nat (nat_of_ascii c) in
  if JsString.is_digit c then Some (n - 48)
  else if JsString.is_upper_hex c then Some (n - 55)
  else if JsString.is_lower_hex c then Some (n - 87)
  else None.

(** The value of the longest prefix of hexadecimal digits, read after the
    digits already accumulated in [acc]. *)
Fixpoint hex_prefix (s : string) (acc : option Z) : option Z :=
  match s with
  | EmptyString => acc
  | String c rest =>
      match hex_digit_value c with
      | Some d =>
          hex_prefix rest (Some (16 * match acc with Some a => a | None => 0 end + d))
      | None => acc
      end
  end.

Definition strip_sign (s : string) : Z * string :=
  match s with
  | String "-" rest => (-1, rest)
  | String "+" rest => (1, rest)
  | _ => (1, s)
  end.

Definition strip_0x (s : string) : string :=
  match s with
  | String "0" (String "x" rest) => rest
  | String "0" (String "X" rest) => rest
  | _ => s
  end.

Definition parseInt16 (s : string) : number :=
  let '(sign, body) := strip_sign (trim_start s) in
  match hex_prefix (strip_0x body) None with
  | Some v => of_Z (sign * v)
  | None => NaN
  end.

(** *** [n.toString(16)] *)

Definition hex_digit_char (d : Z) : ascii :=
  nth (Z.to_nat d)
      ["0"; "1"; "2"; "3"; "4"; "5"; "6"; "7"; "8"; "9";
       "a"; "b"; "c"; "d"; "e"; "f"]%char "0"%char.

Fixpoint hex_of_Z_fuel (fuel : nat) (n : Z) : string :=
  match fuel with
  | O => EmptyString
  | S k =>
      if n <? 16 then String (hex_digit_char n) EmptyString
      else hex_of_Z_fuel k (n / 16) ++ String (hex_digit_char (n mod 16)) EmptyString
  end.

(** The hexadecimal digits of a natural number [n]; a number has no more
    hexadecimal digits than binary ones. *)
Definition hex_of_Z (n : Z) : string :=
  hex_of_Z_fuel (S (Z.to_nat (Z.log2 n))) n.

(** [n.toString(16)] of an integral number (every call in the sources
    follows a [Math.round] or a [Math.floor]); a fraction, which the sources
    never print, is cut off. *)
Definition toString16 (n : number) : string :=
  match n with
  | NaN => "NaN"
  | Fin q =>
      let z := Qfloor q in
      if z <? 0 then String "-" (hex_of_Z (- z)) else hex_of_Z z
  end.

End JsNumber.

Declare Scope num_scope.
Delimit Scope num_scope with num.
Bind Scope num_scope with JsNumber.number.
Infix "+" := JsNumber.add : num_scope.
Infix "-" := JsNumber.sub : num_scope.
Infix "*" := JsNumber.mul : num_scope.
Infix "/" := JsNumber.div : num_scope.
Infix "<?" := JsNumber.lt : num_scope.
Infix "<=?" := JsNumber.le : num_scope.
Infix ">?" := JsNumber.gt : num_scope.
Infix "===" := JsNumber.strict_eq (at level 70, no associativity) : num_scope.
Infix "!==" := JsNumber.strict_neq (at level 70, no associativity) : num_scope.

(** An integer literal among numbers is that integer. *)
Coercion JsNumber.of_Z : Z >-> JsNumber.number.

(* ================================================================== *)
(** ** The data model ([src/types.ts]) *)

Import JsNumber.

Record RGB : Type := mkRGB { r : number; g : number; b : number }.

Record HSL : Type := mkHSL { h : number; s : number; l : number }.

Record Color : Type := mkColor {
  hex : string;
  rgb : RGB;
  hsl : HSL;
  locked : bool
}.

Inductive HarmonyRule : Type :=
| analogous
| complementary
| triadic
| tetradic
| monochromatic.

(** [harmonyRule?: HarmonyRule]: [None] is the absent field. *)
Record Palette : Type := mkPalette {
  colors : list Color;
  harmonyRule : option HarmonyRule
}.

(** The string literal that a rule is in the TypeScript union. *)
Definition rule_name (rule : HarmonyRule) : string :=
  match rule with
  | analogous => "analogous"
  | complementary => "complementary"
  | triadic => "triadic"
  | tetradic => "tetradic"
  | monochromatic => "monochromatic"
  end.

(* ================================================================== *)
(** ** Colour conversions ([src/utils/colorConversions.ts]) *)

Module ColorConversions.

Import JsString.

Definition clamp (value min max : number) : number :=
  Math_min (Math_max value min) max.

Definition hexToRgb (hex : string) : RGB :=
  let cleanHex := strip_hash hex in
  let r := parseInt16 (js_substring cleanHex 0 2) in
  let g := parseInt16 (js_substring cleanHex 2 4) in
  let b := parseInt16 (js_substring cleanHex 4 6) in
  {| r := clamp r 0 255; g := clamp g 0 255; b := clamp b 0 255 |}.

(** The local [toHex] of [rgbToHex]. *)
Definition toHex (n : number) : string :=
  toUpperCase (padStart (toString16 n) 2 "0").

Definition rgbToHex (rgb : RGB) : string :=
  let r := clamp (Math_round rgb.(r)) 0 255 in
  let g := clamp (Math_round rgb.(g)) 0 255 in
  let b := clamp (Math_round rgb.(b)) 0 255 in
  "#" ++ toHex r ++ toHex g ++ toHex b.

Definition rgbToHsl (rgb : RGB) : HSL :=
  let r := (clamp rgb.(r) 0 255 / 255)%num in
  let g := (clamp rgb.(g) 0 255 / 255)%num in
  let b := (clamp rgb.(b) 0 255 / 255)%num in
  let max := Math_max3 r g b in
  let min := Math_min3 r g b in
  let delta := (max - min)%num in
  let l := ((max + min) / 2)%num in
  let '(h, s) :=
    if (delta !== 0)%num then
      let s := if (l >? Fin (1 # 2))%num
               then (delta / (2 - max - min))%num
               else (delta / (max + min))%num in
      let h :=
        if (max === r)%num then
          (((g - b) / delta + (if (g <? b)%num then 6 else 0)) / 6)%num
        else if (max === g)%num then (((b - r) / delta + 2) / 6)%num
        else if (max === b)%num then (((r - g) / delta + 4) / 6)%num
        else of_Z 0 in
      (h, s)
    else (of_Z 0, of_Z 0) in
  {| h := clamp (Math_round (h * 360)%num) 0 360;
     s := clamp (Math_round (s * 100)%num) 0 100;
     l := clamp (Math_round (l * 100)%num) 0 100 |}.

(** The local [hue2rgb] of [hslToRgb]. *)
Definition hue2rgb (p q t : number) : number :=
  let t := if (t <? 0)%num then (t + 1)%num else t in
  let t := if (t >? 1)%num then (t - 1)%num else t in
  if (t <? Fin (1 # 6))%num then (p + (q - p) * 6 * t)%num
  else if (t <? Fin (1 # 2))%num then q
  else if (t <? Fin (2 # 3))%num then (p + (q - p) * (Fin (2 # 3) - t) * 6)%num
  else p.

Definition hslToRgb (hsl : HSL) : RGB :=
  let h := (clamp hsl.(h) 0 360 / 360)%num in
  let s := (clamp hsl.(s) 0 100 / 100)%num in
  let l := (clamp hsl.(l) 0 100 / 100)%num in
  let '(r, g, b) :=
    if (s === 0)%num then (l, l, l)
    else
      let q := if (l <? Fin (1 # 2))%num then (l * (1 + s))%num
               else (l + s - l * s)%num in
      let p := (2 * l - q)%num in
      (hue2rgb p q (h + Fin (1 # 3))%num,
       hue2rgb p q h,
       hue2rgb p q (h - Fin (1 # 3))%num) in
  {| r := clamp (Math_round (r * 255)%num) 0 255;
     g := clamp (Math_round (g * 255)%num) 0 255;
     b := clamp (Math_round (b * 255)%num) 0 255 |}.

Definition hexToHsl (hex : string) : HSL := rgbToHsl (hexToRgb hex).

Definition hslToHex (hsl : HSL) : string := rgbToHex (hslToRgb hsl).

End ColorConversions.

(* ================================================================== *)
(** ** Harmony rules ([src/utils/harmonyRules.ts]) *)

Module HarmonyRules.

Import ColorConversions.

Definition normalizeHue (hue : number) : number :=
  rem (rem hue 360 + 360)%num 360.

(** [createColorFromHsl(hsl, locked = false)] *)
Definition createColorFromHsl (hsl : HSL) (locked : bool) : Color :=
  let hex := hslToHex hsl in
  let rgb := hexToRgb hex in
  {| hex := hex; rgb := rgb; hsl := hsl; locked := locked |}.

Definition generateAnalogousPalette (baseColor : Color) : list Color :=
  let baseHsl := baseColor.(hsl) in
  let hueOffsets : list Z := [-30; -15; 0; 15; 30] in
  map (fun offset : Z =>
         let newHue := normalizeHue (baseHsl.(h) + offset)%num in
         createColorFromHsl
           {| h := newHue; s := baseHsl.(s); l := baseHsl.(l) |} false)
      hueOffsets.

Definition generateComplementaryPalette (baseColor : Color) : list Color :=
  let baseHsl := baseColor.(hsl) in
  let complementaryHue := normalizeHue (baseHsl.(h) + 180)%num in
  [ createColorFromHsl {| h := baseHsl.(h); s := baseHsl.(s);
                          l := Math_max 20 (baseHsl.(l) - 20)%num |} false;
    createColorFromHsl {| h := baseHsl.(h); s := baseHsl.(s);
                          l := baseHsl.(l) |} false;
    createColorFromHsl {| h := baseHsl.(h); s := baseHsl.(s);
                          l := Math_min 80 (baseHsl.(l) + 20)%num |} false;
    createColorFromHsl {| h := complementaryHue; s := baseHsl.(s);
                          l := baseHsl.(l) |} false;
    createColorFromHsl {| h := complementaryHue; s := baseHsl.(s);
                          l := Math_min 80 (baseHsl.(l) + 15)%num |} false ].

Definition generateTriadicPalette (baseColor : Color) : list Color :=
  let baseHsl := baseColor.(hsl) in
  let hue2 := normalizeHue (baseHsl.(h) + 120)%num in
  let hue3 := normalizeHue (baseHsl.(h) + 240)%num in
  [ createColorFromHsl {| h := baseHsl.(h); s := baseHsl.(s);
                          l := baseHsl.(l) |} false;
    createColorFromHsl {| h := baseHsl.(h); s := baseHsl.(s);
                          l := Math_min 80 (baseHsl.(l) + 15)%num |} false;
    createColorFromHsl {| h := hue2; s := baseHsl.(s);
                          l := baseHsl.(l) |} false;
    createColorFromHsl {| h := hue3; s := baseHsl.(s);
                          l := baseHsl.(l) |} false;
    createColorFromHsl {| h := hue2; s := baseHsl.(s);
                          l := Math_max 20 (baseHsl.(l) - 15)%num |} false ].

Definition generateTetradicPalette (baseColor : Color) : list Color :=
  let baseHsl := baseColor.(hsl) in
  let hue2 := normalizeHue (baseHsl.(h) + 90)%num in
  let hue3 := normalizeHue (baseHsl.(h) + 180)%num in
  let hue4 := normalizeHue (baseHsl.(h) + 270)%num in
  [ createColorFromHsl {| h := baseHsl.(h); s := baseHsl.(s);
                          l := baseHsl.(l) |} false;
    createColorFromHsl {| h := hue2; s := baseHsl.(s);
                          l := baseHsl.(l) |} false;
    createColorFromHsl {| h := hue3; s := baseHsl.(s);
                          l := baseHsl.(l) |} false;
    createColorFromHsl {| h := hue4; s := baseHsl.(s);
                          l := baseHsl.(l) |} false;
    createColorFromHsl {| h := baseHsl.(h); s := baseHsl.(s);
                          l := Math_min 80 (baseHsl.(l) + 15)%num |} false ].

Definition generateMonochromaticPalette (baseColor : Color) : list Color :=
  let baseHsl := baseColor.(hsl) in
  [ createColorFromHsl {| h := baseHsl.(h);
                          s := Math_max 10 (baseHsl.(s) - 20)%num;
                          l := Math_max 20 (baseHsl.(l) - 20)%num |} false;
    createColorFromHsl {| h := baseHsl.(h); s := baseHsl.(s);
                          l := Math_max 30 (baseHsl.(l) - 10)%num |} false;
    createColorFromHsl {| h := baseHsl.(h); s := baseHsl.(s);
                          l := baseHsl.(l) |} false;
    createColorFromHsl {| h := baseHsl.(h); s := baseHsl.(s);
                          l := Math_min 70 (baseHsl.(l) + 10)%num |} false;
    createColorFromHsl {| h := baseHsl.(h);
                          s := Math_min 90 (baseHsl.(s) + 20)%num;
                          l := Math_min 80 (baseHsl.(l) + 20)%num |} false ].

(** [Math.max(...hues) - Math.min(...hues)], the hue range that the
    repository's harmony test measures on a palette. *)
Definition hueRange (colors : list Color) : number :=
  match map (fun c => c.(hsl).(h)) colors with
  | [] => NaN
  | x :: xs => (fold_left Math_max xs x - fold_left Math_min xs x)%num
  end.

End HarmonyRules.

(* ================================================================== *)
(** ** The random source *)

Module Random.

(** The state of the pseudorandom generator: [draws n] is what the [n]-th
    call of [Math.random()] returns, [pos] counts the calls made so far. *)
Record rng : Type := mkRng { draws : nat -> Q; pos : nat }.

(** A computation that may call [Math.random()]. *)
Definition M (A : Type) : Type := rng -> A * rng.

Definition ret {A : Type} (a : A) : M A := fun g => (a, g).

Definition bind {A B : Type} (m : M A) (k : A -> M B) : M B :=
  fun g => let '(a, g') := m g in k a g'.

Definition Math_random : M number :=
  fun g => (Fin (g.(draws) g.(pos)), {| draws := g.(draws); pos := S g.(pos) |}).

(** ECMAScript's contract on [Math.random()]: every draw is in [[0, 1)]. *)
Definition unit_draws (g : rng) : Prop :=
  forall n, (0 <= g.(draws) n)%Q /\ (g.(draws) n < 1)%Q.

End Random.

Notation "x <- m ;; k" := (Random.bind m (fun x => k))
  (at level 61, m at next level, right associativity).

(** [xs[i]] for a number [i]: [None] is [undefined]. *)
Definition array_get {A : Type} (xs : list A) (i : number) : option A :=
  match i with
  | Fin q =>
      let z := Qfloor q in
      if (0 <=? z) && Qeq_bool q (inject_Z z) then nth_error xs (Z.to_nat z)
      else None
  | NaN => None
  end.

(* ================================================================== *)
(** ** Palette regeneration ([src/utils/paletteGenerator.ts]) *)

Module PaletteGenerator.

Import JsString ColorConversions HarmonyRules Random.

(** The local [randomHex] of [generateRandomColor]. *)
Definition randomHex : M string :=
  x <- Math_random ;;
  ret (padStart (toString16 (Math_floor (x * 256)%num)) 2 "0").

Definition generateRandomColor : M Color :=
  h1 <- randomHex ;;
  h2 <- randomHex ;;
  h3 <- randomHex ;;
  let hex := toUpperCase ("#" ++ h1 ++ h2 ++ h3) in
  let rgb := hexToRgb hex in
  let hsl := rgbToHsl rgb in
  ret {| hex := hex; rgb := rgb; hsl := hsl; locked := false |}.

Definition rules : list HarmonyRule :=
  [analogous; complementary; triadic; tetradic; monochromatic].

(** The result is [undefined] ([None]) when the index falls outside the
    array, which a draw in [[0, 1)] never causes. *)
Definition selectRandomHarmonyRule : M (option HarmonyRule) :=
  x <- Math_random ;;
  ret (array_get rules (Math_floor (x * Z.of_nat (List.length rules))%num)).

(** The [switch] has no default: on [undefined] the function returns
    [undefined] ([None]). *)
Definition generatePaletteByRule (baseColor : Color) (rule : option HarmonyRule)
  : option (list Color) :=
  match rule with
  | Some analogous => Some (generateAnalogousPalette baseColor)
  | Some complementary => Some (generateComplementaryPalette baseColor)
  | Some triadic => Some (generateTriadicPalette baseColor)
  | Some tetradic => Some (generateTetradicPalette baseColor)
  | Some monochromatic => Some (generateMonochromaticPalette baseColor)
  | None => None
  end.

(** [{ ...genColor, locked: false }] *)
Definition unlock (c : Color) : Color :=
  {| hex := c.(hex); rgb := c.(rgb); hsl := c.(hsl); locked := false |}.

(** [lockedColors.some(locked => locked.hex === genColor.hex)] *)
Definition isAlreadyLocked (lockedColors : list Color) (genColor : Color) : bool :=
  existsb (fun locked => String.eqb locked.(hex) genColor.(hex)) lockedColors.

(** The inner [while] loop, run on the generated colours from
    [generatedIndex] on: the colour pushed, if any, and the index reached. *)
Fixpoint takeGenerated (lockedColors rest : list Color) (generatedIndex : nat)
  : option Color * nat :=
  match rest with
  | [] => (None, generatedIndex)
  | genColor :: rest' =>
      let generatedIndex := S generatedIndex in
      if isAlreadyLocked lockedColors genColor
      then takeGenerated lockedColors rest' generatedIndex
      else (Some (unlock genColor), generatedIndex)
  end.

(** One turn of the [for] loop, at position [i]. *)
Definition mergeStep (current lockedColors generatedColors : list Color)
    (st : list Color * nat) (i : nat) : M (list Color * nat) :=
  let '(finalColors, generatedIndex) := st in
  let keep := match nth_error current i with
              | Some currentColor =>
                  if currentColor.(locked) then Some currentColor else None
              | None => None
              end in
  match keep with
  | Some currentColor => ret ((finalColors ++ [currentColor])%list, generatedIndex)
  | None =>
      let '(picked, generatedIndex) :=
        takeGenerated lockedColors (skipn generatedIndex generatedColors)
                      generatedIndex in
      let finalColors := match picked with
                         | Some c => (finalColors ++ [c])%list
                         | None => finalColors
                         end in
      if (List.length finalColors =? i)%nat then
        c <- generateRandomColor ;;
        ret ((finalColors ++ [c])%list, generatedIndex)
      else ret (finalColors, generatedIndex)
  end.

(** The [for] loop over the positions [is]. *)
Fixpoint mergeLoop (current lockedColors generatedColors : list Color)
    (positions : list nat) (st : list Color * nat) : M (list Color * nat) :=
  match positions with
  | [] => ret st
  | i :: rest =>
      st' <- mergeStep current lockedColors generatedColors st i ;;
      mergeLoop current lockedColors generatedColors rest st'
  end.

(** [while (finalColors.length < 5) finalColors.push(generateRandomColor())];
    [fuel] bounds the turns, and [5] always suffices. *)
Fixpoint padToFive (fuel : nat) (finalColors : list Color) : M (list Color) :=
  match fuel with
  | O => ret finalColors
  | S k =>
      if (List.length finalColors <? 5)%nat then
        c <- generateRandomColor ;;
        padToFive k (finalColors ++ [c])%list
      else ret finalColors
  end.

(** The first two branches: a palette from a random base colour.  When the
    rule is [undefined] so is [colors], and the object is no [Palette]. *)
Definition freshPalette (harmonyRule : option HarmonyRule) : M (option Palette) :=
  baseColor <- generateRandomColor ;;
  match generatePaletteByRule baseColor harmonyRule with
  | Some colors => ret (Some {| colors := colors; harmonyRule := harmonyRule |})
  | None => ret None
  end.

(** [generateRandomPalette(currentPalette?)]; [None] as a result stands for
    the outcomes that are no [Palette] (a [TypeError], or [colors] left
    [undefined]), which need a rule index outside the array. *)
Definition generateRandomPalette (currentPalette : option Palette)
  : M (option Palette) :=
  harmonyRule <- selectRandomHarmonyRule ;;
  match currentPalette with
  | None => freshPalette harmonyRule
  | Some currentPalette =>
      if (List.length currentPalette.(colors) =? 0)%nat then
        freshPalette harmonyRule
      else
        let lockedColors := filter locked currentPalette.(colors) in
        if (List.length lockedColors =? 0)%nat then freshPalette harmonyRule
        else if (5 <=? List.length lockedColors)%nat then
          ret (Some {| colors := currentPalette.(colors);
                       harmonyRule := harmonyRule |})
        else
          (* [lockedColors[0]]: the list is not empty here *)
          match lockedColors with
          | [] => ret None
          | baseColor :: _ =>
              match generatePaletteByRule baseColor harmonyRule with
              | None => ret None
              | Some generatedColors =>
                  st <- mergeLoop currentPalette.(colors) lockedColors
                          generatedColors (seq 0 5) ([], O) ;;
                  finalColors <- padToFive 5 (fst st) ;;
                  ret (Some {| colors := firstn 5 finalColors;
                               harmonyRule := harmonyRule |})
              end
          end
  end.

End PaletteGenerator.

(* ================================================================== *)
(** ** [URLSearchParams], as the URL standard defines it *)

Module URLSearchParams.

Import JsString.

(** The list of name-value pairs of a [URLSearchParams] object. *)
Definition params : Type := list (string * string).

(** [params.get(name)]: the first value under [name], [None] for [null]. *)
Fixpoint get (name : string) (ps : params) : option string :=
  match ps with
  | [] => None
  | (n, v) :: rest => if String.eqb n name then Some v else get name rest
  end.

(** [params.set(name, value)]: the first pair under [name] takes the value
    and the later ones go; with no such pair, one is appended. *)
Fixpoint set (name value : string) (ps : params) : params :=
  match ps with
  | [] => [(name, value)]
  | (n, v) :: rest =>
      if String.eqb n name
      then (n, value) :: filter (fun p => negb (String.eqb (fst p) name)) rest
      else (n, v) :: set name value rest
  end.

(** Bytes that the [application/x-www-form-urlencoded] serializer leaves
    as they are: ASCII alphanumerics and [*], [-], [.], [_]. *)
Definition is_unreserved (c : ascii) : bool :=
  let n := nat_of_ascii c in
  is_digit c
  || ((65 <=? n)%nat && (n <=? 90)%nat)
  || ((97 <=? n)%nat && (n <=? 122)%nat)
  || Ascii.eqb c "*" || Ascii.eqb c "-" || Ascii.eqb c "." || Ascii.eqb c "_".

Definition upper_hex_digit (d : nat) : ascii :=
  upper_char (hex_digit_char (Z.of_nat d)).

Definition encode_byte (c : ascii) : string :=
  if is_unreserved c then String c EmptyString
  else if Ascii.eqb c " " then "+"
  else let n := nat_of_ascii c in
       String "%" (String (upper_hex_digit (n / 16))
                          (String (upper_hex_digit (n mod 16)) EmptyString)).

Fixpoint encode (s : string) : string :=
  match s with
  | EmptyString => EmptyString
  | String c rest => encode_byte c ++ encode rest
  end.

(** [params.toString()] *)
Definition toString (ps : params) : string :=
  join "&" (map (fun p => encode (fst p) ++ "=" ++ encode (snd p)) ps).

Fixpoint plus_to_space (s : string) : string :=
  match s with
  | EmptyString => EmptyString
  | String c rest =>
      String (if Ascii.eqb c "+" then " "%char else c) (plus_to_space rest)
  end.

(** Percent-decoding: a [%] that two hexadecimal digits follow is the byte
    they spell; any other [%] stands for itself. *)
Fixpoint percent_decode (s : string) : string :=
  match s with
  | EmptyString => EmptyString
  | String c rest =>
      match rest with
      | String x (String y rest') =>
          if Ascii.eqb c "%" then
            match hex_digit_value x, hex_digit_value y with
            | Some hi, Some lo =>
                String (ascii_of_nat (Z.to_nat (16 * hi + lo)))
                       (percent_decode rest')
            | _, _ => String c (percent_decode rest)
            end
          else String c (percent_decode rest)
      | _ => String c (percent_decode rest)
      end
  end.

Definition decode (s : string) : string := percent_decode (plus_to_space s).

(** The part before the first [=] and the part after it; without a [=] the
    whole is the name and the value is empty. *)
Fixpoint split_pair (s : string) : string * string :=
  match s with
  | EmptyString => (EmptyString, EmptyString)
  | String c rest =>
      if Ascii.eqb c "=" then (EmptyString, rest)
      else let '(n, v) := split_pair rest in (String c n, v)
  end.

Definition parse_pair (piece : string) : string * string :=
  let '(n, v) := split_pair piece in (decode n, decode v).

Definition is_empty (s : string) : bool :=
  match s with
  | EmptyString => true
  | _ => false
  end.

Definition strip_question (s : string) : string :=
  match s with
  | String "?" rest => rest
  | _ => s
  end.

(** [new URLSearchParams(init)] for a string [init]. *)
Definition parse (init : string) : params :=
  map parse_pair
      (filter (fun piece => negb (is_empty piece))
              (split "&" (strip_question init))).

End URLSearchParams.

(* ================================================================== *)
(** ** URL state ([src/utils/urlState.ts]) *)

Module UrlState.

Import JsString ColorConversions.

Definition encodePaletteToUrl (palette : Palette) : string :=
  let params : URLSearchParams.params := [] in
  let colorHexes := map (fun color => remove_first_hash color.(hex))
                        palette.(colors) in
  let params := URLSearchParams.set "colors" (join "," colorHexes) params in
  let locks := join "" (map (fun color => if color.(locked) then "1" else "0")
                            palette.(colors)) in
  let params := URLSearchParams.set "locks" locks params in
  let params := match palette.(harmonyRule) with
                | Some rule => URLSearchParams.set "harmony" (rule_name rule) params
                | None => params
                end in
  URLSearchParams.toString params.

(** The body of the [for (const hex of hexColors)] loop. *)
Definition decodeColor (hex : string) : option Color :=
  if negb (is_hex6 hex) then None
  else
    let fullHex := "#" ++ toUpperCase hex in
    let rgb := hexToRgb fullHex in
    let hsl := rgbToHsl rgb in
    Some {| hex := fullHex; rgb := rgb; hsl := hsl; locked := false |}.

(** The loop: the first invalid token ends the decoding with [null]. *)
Fixpoint decodeColors (hexColors : list string) : option (list Color) :=
  match hexColors with
  | [] => Some []
  | hex :: rest =>
      match decodeColor hex with
      | None => None
      | Some c =>
          match decodeColors rest with
          | None => None
          | Some cs => Some (c :: cs)
          end
      end
  end.

(** [colors[i].locked = v]; an index outside the array would throw, which
    the loop below, run on five colours, never meets. *)
Fixpoint setLocked (colors : list Color) (i : nat) (v : bool) : list Color :=
  match colors, i with
  | [], _ => []
  | c :: rest, O =>
      {| hex := c.(hex); rgb := c.(rgb); hsl := c.(hsl); locked := v |} :: rest
  | c :: rest, S k => c :: setLocked rest k v
  end.

(** [locksParam[i] === '1'] *)
Definition lockBit (locksParam : string) (i : nat) : bool :=
  match char_at locksParam i with
  | Some c => Ascii.eqb c "1"
  | None => false
  end.

(** [for (let i = 0; i < 5; i++) colors[i].locked = locksParam[i] === '1'] *)
Definition applyLocks (locksParam : string) (colors : list Color) : list Color :=
  fold_left (fun cs i => setLocked cs i (lockBit locksParam i)) (seq 0 5) colors.

(** [validRules.includes(harmonyParam)] together with the cast. *)
Definition ruleOfName (name : string) : option HarmonyRule :=
  find (fun rule => String.eqb (rule_name rule) name)
       [analogous; complementary; triadic; tetradic; monochromatic].

(** [decodePaletteFromUrl(urlHash)]; [None] is [null].  No step of the
    [try] block can throw, so the [catch] is never entered. *)
Definition decodePaletteFromUrl (urlHash : string) : option Palette :=
  let cleanHash := strip_hash urlHash in
  if URLSearchParams.is_empty cleanHash then None
  else
    let params := URLSearchParams.parse cleanHash in
    match URLSearchParams.get "colors" params with
    | None => None
    | Some colorsParam =>
        if URLSearchParams.is_empty colorsParam then None
        else
          let hexColors := split "," colorsParam in
          if negb (List.length hexColors =? 5)%nat then None
          else
            match decodeColors hexColors with
            | None => None
            | Some colors =>
                let colors :=
                  match URLSearchParams.get "locks" params with
                  | Some locksParam =>
                      if URLSearchParams.is_empty locksParam then colors
                      else if negb (is_locks5 locksParam) then colors
                      else applyLocks locksParam colors
                  | None => colors
                  end in
                let harmonyRule :=
                  match URLSearchParams.get "harmony" params with
                  | Some harmonyParam =>
                      if URLSearchParams.is_empty harmonyParam then None
                      else ruleOfName harmonyParam
                  | None => None
                  end in
                Some {| colors := colors; harmonyRule := harmonyRule |}
            end
    end.

End UrlState.

(* ================================================================== *)
(** ** Contrast ([src/utils/contrastCalculations.ts]), over the reals *)

Module ContrastCalculations.

Local Open Scope R_scope.

(** The gamma correction applied to each channel of [getRelativeLuminance]:
    [c <= 0.03928 ? c / 12.92 : Math.pow((c + 0.055) / 1.055, 2.4)]. *)
Definition gammaCorrect (c : R) : R :=
  if Rle_dec c 0.03928 then c / 12.92
  else Rpower ((c + 0.055) / 1.055) 2.4.

(** [getRelativeLuminance(rgb)]; [None] is [NaN], which a [NaN] channel
    yields. *)
Definition getRelativeLuminance (rgb : RGB) : option R :=
  match rgb.(r), rgb.(g), rgb.(b) with
  | Fin rq, Fin gq, Fin bq =>
      let rsRGB := Q2R rq / 255 in
      let gsRGB := Q2R gq / 255 in
      let bsRGB := Q2R bq / 255 in
      let r := gammaCorrect rsRGB in
      let g := gammaCorrect gsRGB in
      let b := gammaCorrect bsRGB in
      Some (0.2126 * r + 0.7152 * g + 0.0722 * b)
  | _, _, _ => None
  end.

Definition calculateContrastRatio (rgb1 rgb2 : RGB) : option R :=
  match getRelativeLuminance rgb1, getRelativeLuminance rgb2 with
  | Some lum1, Some lum2 =>
      let lighter := Rmax lum1 lum2 in
      let darker := Rmin lum1 lum2 in
      Some ((lighter + 0.05) / (darker + 0.05))
  | _, _ => None
  end.

Definition meetsWCAG_AA (ratio : R) : Prop := ratio >= 4.5.

Definition meetsWCAG_AAA (ratio : R) : Prop := ratio >= 7.0.

End ContrastCalculations.

(* ================================================================== *)
(** ** Palette state ([src/hooks/usePalette.ts]) *)

Module UsePalette.

(** [xs] with [f] applied to the element at [i]; [xs] itself when [i] is
    not an index of it. *)
Fixpoint updateAt {A : Type} (f : A -> A) (i : nat) (xs : list A) : list A :=
  match xs, i with
  | [], _ => []
  | x :: rest, O => f x :: rest
  | x :: rest, S k => x :: updateAt f k rest
  end.

(** [{ ...color, locked: !color.locked }] *)
Definition flipLock (c : Color) : Color :=
  {| hex := c.(hex); rgb := c.(rgb); hsl := c.(hsl);
     locked := negb c.(locked) |}.

(** The state update of [toggleLock(index)]; [index] is the position of a
    swatch, an integer. *)
Definition toggleLock (index : Z) (prevPalette : Palette) : Palette :=
  if (index <? 0) || (Z.of_nat (List.length prevPalette.(colors)) <=? index)
  then prevPalette
  else
    let newColors := updateAt flipLock (Z.to_nat index) prevPalette.(colors) in
    {| colors := newColors; harmonyRule := prevPalette.(harmonyRule) |}.

(** The state update of [updateColor(index, color)]. *)
Definition updateColor (index : Z) (color : Color) (prevPalette : Palette)
  : Palette :=
  if (index <? 0) || (Z.of_nat (List.length prevPalette.(colors)) <=? index)
  then prevPalette
  else
    let newColors :=
      updateAt (fun _ => color) (Z.to_nat index) prevPalette.(colors) in
    {| colors := newColors; harmonyRule := prevPalette.(harmonyRule) |}.

(** The initial state: the palette of the URL hash when it decodes, a
    random palette otherwise. *)
Definition initialPalette (locationHash : string)
  : Random.M (option Palette) :=
  match UrlState.decodePaletteFromUrl locationHash with
  | Some urlPalette => Random.ret (Some urlPalette)
  | None => PaletteGenerator.generateRandomPalette None
  end.

End UsePalette.

(* ================================================================== *)
(** ** The sliders of a swatch ([src/components/ColorSwatch.tsx]) *)

Module ColorSwatch.

(** [keyof HSL] *)
Inductive HslKey : Type := key_h | key_s | key_l.

(** [{ ...hsl, [property]: value }] *)
Definition setHslProperty (hsl : HSL) (property : HslKey) (value : number)
  : HSL :=
  match property with
  | key_h => {| h := value; s := hsl.(s); l := hsl.(l) |}
  | key_s => {| h := hsl.(h); s := value; l := hsl.(l) |}
  | key_l => {| h := hsl.(h); s := hsl.(s); l := value |}
  end.

(** The colour that [handleSliderChange(property, value)] hands to
    [onColorChange], from the [hsl] state of the swatch. *)
Definition handleSliderChange (hsl : HSL) (property : HslKey) (value : number)
  : Color :=
  let newHsl := setHslProperty hsl property value in
  let hex := ColorConversions.hslToHex newHsl in
  let rgb := ColorConversions.hslToRgb newHsl in
  {| hex := hex; rgb := rgb; hsl := newHsl; locked := true |}.

End ColorSwatch.

(* ================================================================== *)
(** ** Predicates of the specification *)

Import JsString ColorConversions HarmonyRules PaletteGenerator UrlState.
Import ContrastCalculations.

(** A number that is an integer between [lo] and [hi]. *)
Definition int_between (lo hi : Z) (n : number) : Prop :=
  exists z : Z, n = of_Z z /\ lo <= z <= hi.

(** A number, of any kind, between [lo] and [hi]. *)
Definition num_between (lo hi : Q) (n : number) : Prop :=
  match n with
  | Fin q => (lo <= q)%Q /\ (q <= hi)%Q
  | NaN => False
  end.

(** The RGB value with the integer channels [r], [g] and [b]. *)
Definition rgbOf (r g b : Z) : RGB := {| r := r; g := g; b := b |}.

(** An RGB value whose channels are integers of [[0, 255]]. *)
Definition rgb_integral (c : RGB) : Prop :=
  int_between 0 255 c.(r) /\ int_between 0 255 c.(g) /\ int_between 0 255 c.(b).

(** An RGB value whose channels lie in [[0, 255]]. *)
Definition rgb_in_gamut (c : RGB) : Prop :=
  num_between 0 255 c.(r) /\ num_between 0 255 c.(g) /\ num_between 0 255 c.(b).

(** What a channel of [hexToRgb] can be: [NaN] or a byte. *)
Definition nan_or_byte (n : number) : Prop := n = NaN \/ int_between 0 255 n.

(** The channel that [rgbToHex] prints: rounded, then clamped. *)
Definition printedChannel (n : number) : string :=
  toHex (clamp (Math_round n) 0 255).

(** A number that is not [NaN]. *)
Definition finite (n : number) : Prop := exists q, n = Fin q.

(** The invariant of the merge loop of [generateRandomPalette] at position
    [i]: [i] colours are in place, and every locked colour that the current
    palette has before [i] sits at its index. *)
Definition merged (current : list Color) (i : nat) (finalColors : list Color)
  : Prop :=
  List.length finalColors = i
  /\ forall j c, (j < i)%nat -> nth_error current j = Some c ->
                 c.(locked) = true -> nth_error finalColors j = Some c.

(** The characters that the form serializer writes: the ones it leaves as
    they are, [+] and [%]. *)
Definition is_plain (c : ascii) : bool :=
  URLSearchParams.is_unreserved c || Ascii.eqb c "+" || Ascii.eqb c "%".

(** The parameters that [decodePaletteFromUrl] reads from a hash. *)
Definition paramsOf (urlHash : string) : URLSearchParams.params :=
  URLSearchParams.parse (strip_hash urlHash).

(** The colour that a six-digit token of the URL stands for: its hex is [#]
    and the token in upper case, its RGB is read from that hex and its HSL
    from that RGB. *)
Definition spells (token : string) (c : Color) : Prop :=
  c.(hex) = "#" ++ toUpperCase token
  /\ c.(rgb) = hexToRgb c.(hex)
  /\ c.(hsl) = rgbToHsl c.(rgb).

(** A colour with its RGB and HSL computed again from its hex. *)
Definition rederive (c : Color) : Color :=
  {| hex := c.(hex);
     rgb := hexToRgb c.(hex);
     hsl := rgbToHsl (hexToRgb c.(hex));
     locked := c.(locked) |}.

(** A colour whose three representations agree: the hex has the form
    [#RRGGBB], the channels are integers of [[0, 255]], and they are both
    what the hex spells and what [hslToRgb] gives for the HSL. *)
Definition sound_color (c : Color) : Prop :=
  is_canonical_hex c.(hex) = true
  /\ c.(rgb) = hexToRgb c.(hex)
  /\ c.(rgb) = hslToRgb c.(hsl)
  /\ rgb_integral c.(rgb).

(** Whether the slot [i] of a list of colours holds a locked colour. *)
Definition lockedAt (cs : list Color) (i : nat) : bool :=
  match nth_error cs i with
  | Some c => c.(locked)
  | None => false
  end.

(** The colours of the palette passed to [generateRandomPalette], none
    when no palette is passed. *)
Definition colorsOf (current : option Palette) : list Color :=
  match current with
  | Some p => p.(colors)
  | None => []
  end.

(** An HSL value within the documented ranges: a hue of [[0, 360]], a
    saturation and a lightness of [[0, 100]]. *)
Definition hsl_in_range (c : HSL) : Prop :=
  num_between 0 360 c.(h) /\ num_between 0 100 c.(s)
  /\ num_between 0 100 c.(l).

(** The invariant of the merge loop on lock flags: [i] colours are in
    place, each locked exactly when the current palette's colour at its
    index is. *)
Definition merged_flags (current : list Color) (i : nat)
    (finalColors : list Color) : Prop :=
  List.length finalColors = i
  /\ forall j, (j < i)%nat -> lockedAt finalColors j = lockedAt current j.

(* ================================================================== *)
(** ** Sample values *)

Definition pureRed : Color :=
  {| hex := "#FF0000"; rgb := rgbOf 255 0 0;
     hsl := {| h := 0; s := 100; l := 50 |}; locked := true |}.

Definition pureGreen : Color :=
  {| hex := "#00FF00"; rgb := rgbOf 0 255 0;
     hsl := {| h := 120; s := 100; l := 50 |}; locked := false |}.

Definition pureBlue : Color :=
  {| hex := "#0000FF"; rgb := rgbOf 0 0 255;
     hsl := {| h := 240; s := 100; l := 50 |}; locked := true |}.

Definition samplePalette : Palette :=
  {| colors := [pureGreen; pureRed; pureGreen; pureBlue; pureGreen];
     harmonyRule := Some triadic |}.

(** A share link with lower-case digits, three locks and a rule. *)
Definition sampleHash : string :=
  "#colors=ff0000,00FF00,0000ff,FFFF00,FF00FF&locks=10101&harmony=triadic".

(** A generator whose every draw is one third. *)
Definition thirds : Random.rng :=
  {| Random.draws := fun _ => (1 # 3)%Q; Random.pos := 0 |}.

(** A generator that draws 0, 255/256, 0, 0, ...: the rule of index 0
    ([analogous]) and then the colour [#FF0000]. *)
Definition redDraws : Random.rng :=
  {| Random.draws := fun n => match n with
                              | 1%nat => (255 # 256)%Q
                              | _ => 0%Q
                              end;
     Random.pos := 0 |}.

(* ================================================================== *)
(** * Properties *)


(* ------------------------------------------------------------------ *)
(** ** Numbers: integers through [Math.max], [Math.min] and [clamp] *)

Section Integers.

Lemma Qle_bool_inject_Z (a b : Z) :
  Qle_bool (inject_Z a) (inject_Z b) = (a <=? b).
Proof.
  unfold Qle_bool, inject_Z; simpl. now rewrite !Z.mul_1_r.
Qed.

Lemma Math_max_of_Z (a b : Z) : Math_max (of_Z a) (of_Z b) = of_Z (Z.max a b).
Proof.
  unfold Math_max, of_Z. rewrite Qle_bool_inject_Z.
  destruct (Z.leb_spec a b).
  - now rewrite Z.max_r.
  - now rewrite Z.max_l by lia.
Qed.

Lemma Math_min_of_Z (a b : Z) : Math_min (of_Z a) (of_Z b) = of_Z (Z.min a b).
Proof.
  unfold Math_min, of_Z. rewrite Qle_bool_inject_Z.
  destruct (Z.leb_spec a b).
  - now rewrite Z.min_l.
  - now rewrite Z.min_r by lia.
Qed.

Lemma clamp_of_Z (z lo hi : Z) :
  clamp (of_Z z) (of_Z lo) (of_Z hi) = of_Z (Z.min (Z.max z lo) hi).
Proof.
  unfold clamp. now rewrite Math_max_of_Z, Math_min_of_Z.
Qed.

Lemma clamp_int_between (z lo hi : Z) :
  lo <= hi -> int_between lo hi (clamp (of_Z z) (of_Z lo) (of_Z hi)).
Proof.
  intros Hle. rewrite clamp_of_Z. eexists; split; [reflexivity | lia].
Qed.

Lemma Math_round_of_Z (z : Z) : Math_round (of_Z z) = of_Z z.
Proof.
  unfold Math_round, of_Z. do 2 f_equal.
  unfold Qfloor, inject_Z, Qplus; simpl.
  replace (z * 2 + 1) with (1 + z * 2) by ring.
  rewrite Z.div_add by lia. reflexivity.
Qed.

Lemma parseInt16_cases (s : string) :
  parseInt16 s = NaN \/ exists z, parseInt16 s = of_Z z.
Proof.
  unfold parseInt16.
  destruct (strip_sign (trim_start s)) as [sign body].
  destruct (hex_prefix (strip_0x body) None) as [v |]; eauto.
Qed.

End Integers.

(* ------------------------------------------------------------------ *)
(** ** [hexToRgb] on arbitrary strings *)

Section HexToRgb.

Lemma clamp_parseInt16 (s : string) :
  nan_or_byte (clamp (parseInt16 s) (of_Z 0) (of_Z 255)).
Proof.
  destruct (parseInt16_cases s) as [E | [z E]]; rewrite E.
  - left. reflexivity.
  - right. apply clamp_int_between. lia.
Qed.

Lemma is_hex_char_listed (c : ascii) :
  is_hex_char c = true -> In c hex_chars.
Proof.
  intros H.
  assert (E : existsb (Ascii.eqb c) hex_chars = true).
  { revert H.
    destruct c as [[] [] [] [] [] [] [] []]; vm_compute;
      intros H; first [reflexivity | discriminate H]. }
  apply existsb_exists in E. destruct E as (x & Hin & Hx).
  apply Ascii.eqb_eq in Hx. now subst.
Qed.

Lemma hex_pairs_checked :
  forallb (fun c1 =>
    forallb (fun c2 =>
      String.eqb
        (printedChannel
           (clamp (parseInt16 (String c1 (String c2 EmptyString))) 0 255))
        (String (upper_char c1) (String (upper_char c2) EmptyString)))
      hex_chars) hex_chars = true.
Proof. vm_compute. reflexivity. Qed.

(** Two hexadecimal digits, parsed and printed again, come back in upper
    case. *)
Lemma hex_pair_round_trip (c1 c2 : ascii) :
  is_hex_char c1 = true -> is_hex_char c2 = true ->
  printedChannel (clamp (parseInt16 (String c1 (String c2 EmptyString))) 0 255)
  = String (upper_char c1) (String (upper_char c2) EmptyString).
Proof.
  intros H1 H2.
  apply is_hex_char_listed in H1. apply is_hex_char_listed in H2.
  pose proof hex_pairs_checked as Hall.
  rewrite forallb_forall in Hall. specialize (Hall c1 H1).
  rewrite forallb_forall in Hall. specialize (Hall c2 H2).
  now apply String.eqb_eq in Hall.
Qed.

Lemma hex_pairs_parse :
  forallb (fun c1 =>
    forallb (fun c2 =>
      match clamp (parseInt16 (String c1 (String c2 EmptyString))) 0 255 with
      | Fin _ => true
      | NaN => false
      end) hex_chars) hex_chars = true.
Proof. vm_compute. reflexivity. Qed.

(** Two hexadecimal digits parse to a byte. *)
Lemma hex_pair_byte (c1 c2 : ascii) :
  is_hex_char c1 = true -> is_hex_char c2 = true ->
  int_between 0 255
    (clamp (parseInt16 (String c1 (String c2 EmptyString))) 0 255).
Proof.
  intros H1 H2.
  apply is_hex_char_listed in H1. apply is_hex_char_listed in H2.
  pose proof hex_pairs_parse as Hall.
  rewrite forallb_forall in Hall. specialize (Hall c1 H1).
  rewrite forallb_forall in Hall. specialize (Hall c2 H2).
  destruct (clamp_parseInt16 (String c1 (String c2 EmptyString))) as [E | E].
  - change (of_Z 0) with (0 : number) in E.
    rewrite E in Hall. discriminate Hall.
  - exact E.
Qed.

(** Six hexadecimal digits, spelled out. *)
Lemma is_hex6_inv (t : string) :
  is_hex6 t = true ->
  exists c1 c2 c3 c4 c5 c6,
    t = String c1 (String c2 (String c3 (String c4 (String c5
          (String c6 EmptyString)))))
    /\ is_hex_char c1 = true /\ is_hex_char c2 = true
    /\ is_hex_char c3 = true /\ is_hex_char c4 = true
    /\ is_hex_char c5 = true /\ is_hex_char c6 = true.
Proof.
  unfold is_hex6. intros H. apply andb_true_iff in H. destruct H as [Hl Hc].
  apply Nat.eqb_eq in Hl.
  destruct t as [| c1 [| c2 [| c3 [| c4 [| c5 [| c6 [| c7 t]]]]]]];
    simpl in Hl; try discriminate Hl.
  simpl in Hc.
  repeat (apply andb_true_iff in Hc; destruct Hc as [? Hc]).
  exists c1, c2, c3, c4, c5, c6. repeat split; assumption.
Qed.

Lemma hexToRgb_hex6 (hex : string) (c1 c2 c3 c4 c5 c6 : ascii) :
  strip_hash hex
  = String c1 (String c2 (String c3 (String c4 (String c5
      (String c6 EmptyString))))) ->
  hexToRgb hex
  = {| r := clamp (parseInt16 (String c1 (String c2 EmptyString))) 0 255;
       g := clamp (parseInt16 (String c3 (String c4 EmptyString))) 0 255;
       b := clamp (parseInt16 (String c5 (String c6 EmptyString))) 0 255 |}.
Proof.
  intros E. unfold hexToRgb. rewrite E. reflexivity.
Qed.

(** C7, as the code has it. [hexToRgb] is total, so it never throws; each
    channel it returns is [NaN] or an integer of [[0, 255]], and on six
    hexadecimal digits, with or without the leading [#], all three channels
    are such integers. *)
Theorem hexToRgb_channels (hex : string) :
  (nan_or_byte (hexToRgb hex).(r)
   /\ nan_or_byte (hexToRgb hex).(g)
   /\ nan_or_byte (hexToRgb hex).(b))
  /\ (is_hex6 (strip_hash hex) = true -> rgb_integral (hexToRgb hex)).
Proof.
  split.
  - unfold hexToRgb; simpl. repeat split; apply clamp_parseInt16.
  - intros H. apply is_hex6_inv in H.
    destruct H as (c1 & c2 & c3 & c4 & c5 & c6 & E & H1 & H2 & H3 & H4 & H5 & H6).
    rewrite (hexToRgb_hex6 _ _ _ _ _ _ _ E).
    unfold rgb_integral; simpl.
    repeat split; apply hex_pair_byte; assumption.
Qed.

Lemma hexToRgb_channels_witness : rgb_integral (hexToRgb "#FF8000").
Proof.
  apply (proj2 (hexToRgb_channels "#FF8000")). reflexivity.
Defined.

(** C7 as stated fails: on a string that is not hexadecimal the channels are
    [NaN], which [clamp] lets through. *)
Lemma hexToRgb_not_in_gamut : ~ rgb_in_gamut (hexToRgb "#GGGGGG").
Proof.
  unfold rgb_in_gamut. vm_compute. intros [H _]. exact H.
Qed.

(** C3, as the code has it. For six hexadecimal digits [h], with or without
    the leading [#], [rgbToHex (hexToRgb h)] is [#] followed by the digits in
    upper case; it is [h] itself when [h] is in that canonical form. *)
Theorem hex_round_trip (h : string) (Hvalid : is_hex6 (strip_hash h) = true) :
  rgbToHex (hexToRgb h) = "#" ++ toUpperCase (strip_hash h)
  /\ (is_canonical_hex h = true -> rgbToHex (hexToRgb h) = h).
Proof.
  assert (Hgen : rgbToHex (hexToRgb h) = "#" ++ toUpperCase (strip_hash h)).
  { apply is_hex6_inv in Hvalid.
    destruct Hvalid
      as (c1 & c2 & c3 & c4 & c5 & c6 & E & H1 & H2 & H3 & H4 & H5 & H6).
    rewrite (hexToRgb_hex6 _ _ _ _ _ _ _ E), E.
    unfold rgbToHex; cbn [r g b].
    fold (printedChannel
            (clamp (parseInt16 (String c1 (String c2 EmptyString))) 0 255)).
    fold (printedChannel
            (clamp (parseInt16 (String c3 (String c4 EmptyString))) 0 255)).
    fold (printedChannel
            (clamp (parseInt16 (String c5 (String c6 EmptyString))) 0 255)).
    rewrite !hex_pair_round_trip by assumption.
    reflexivity. }
  split; [exact Hgen |].
  intros Hc. rewrite Hgen.
  destruct h as [| c h']; [discriminate Hc |].
  unfold is_canonical_hex in Hc.
  destruct (Ascii.eqb_spec c "#") as [-> | Hne].
  - cbn [strip_hash]. cbn. f_equal.
    apply andb_true_iff in Hc. destruct Hc as [_ Hc].
    clear - Hc. induction h' as [| x t IH]; [reflexivity |].
    cbn in Hc |- *. apply andb_true_iff in Hc. destruct Hc as [Hx Ht].
    rewrite (IH Ht). f_equal.
    revert Hx. destruct x as [[] [] [] [] [] [] [] []]; vm_compute;
      intros Hx; first [reflexivity | discriminate Hx].
  - exfalso. revert Hc.
    destruct c as [[] [] [] [] [] [] [] []]; first [discriminate | congruence].
Qed.

Lemma hex_round_trip_witness :
  rgbToHex (hexToRgb "#3FA2C0") = "#" ++ toUpperCase (strip_hash "#3FA2C0")
  /\ (is_canonical_hex "#3FA2C0" = true ->
      rgbToHex (hexToRgb "#3FA2C0") = "#3FA2C0").
Proof.
  apply (hex_round_trip "#3FA2C0"). reflexivity.
Defined.

(** C3 as stated fails: without the leading [#] the input does not come
    back, since [rgbToHex] always writes one. *)
Lemma hex_round_trip_needs_hash :
  is_hex6 (strip_hash "FF0000") = true
  /\ rgbToHex (hexToRgb "FF0000") <> "FF0000".
Proof.
  split; [reflexivity | vm_compute; discriminate].
Qed.

End HexToRgb.

(* ------------------------------------------------------------------ *)
(** ** [rgbToHsl]: no division by zero, and the ranges of the result *)

Section RgbToHsl.

Ltac qconst :=
  change (inject_Z 0) with 0%Q in *;
  change (inject_Z 1) with 1%Q in *;
  change (inject_Z 2) with 2%Q in *;
  change (inject_Z 255) with 255%Q in *.

Lemma unit_channel (q : Q) :
  exists u, (clamp (Fin q) 0 255 / 255)%num = Fin u /\ (0 <= u)%Q /\ (u <= 1)%Q.
Proof.
  unfold clamp, Math_max, Math_min, of_Z.
  destruct (Qle_bool q (inject_Z 0)) eqn:E0.
  - simpl. eexists; split; [reflexivity|]. split; [ easy | easy].
  - destruct (Qle_bool q (inject_Z 255)) eqn:E1.
    + simpl. eexists; split; [reflexivity|].
      apply Qle_bool_iff in E1.
      assert (~ (q <= inject_Z 0)%Q) by (rewrite <- Qle_bool_iff; congruence).
      qconst. unfold Qdiv. change (/ 255)%Q with (1#255)%Q.
      split; lra.
    + simpl. eexists; split; [reflexivity|]. split; easy.
Qed.

Lemma Math_max_fin (x y : Q) :
  exists m, Math_max (Fin x) (Fin y) = Fin m
            /\ (x <= m)%Q /\ (y <= m)%Q /\ (m == x \/ m == y)%Q.
Proof.
  unfold Math_max. destruct (Qle_bool x y) eqn:E.
  - apply Qle_bool_iff in E. exists y. repeat split; lra.
  - assert (~ (x <= y)%Q) by (rewrite <- Qle_bool_iff; congruence).
    exists x. repeat split; lra.
Qed.

Lemma Math_min_fin (x y : Q) :
  exists m, Math_min (Fin x) (Fin y) = Fin m
            /\ (m <= x)%Q /\ (m <= y)%Q /\ (m == x \/ m == y)%Q.
Proof.
  unfold Math_min. destruct (Qle_bool x y) eqn:E.
  - apply Qle_bool_iff in E. exists x. repeat split; lra.
  - assert (~ (x <= y)%Q) by (rewrite <- Qle_bool_iff; congruence).
    exists y. repeat split; lra.
Qed.

Lemma div_fin (x y : Q) : ~ (y == 0)%Q -> (Fin x / Fin y)%num = Fin (x / y).
Proof.
  intros H. unfold div.
  destruct (Qeq_bool y 0) eqn:E; [| reflexivity].
  apply Qeq_bool_iff in E. contradiction.
Qed.

Lemma clamp_round_fin (q : Q) (lo hi : Z) :
  lo <= hi -> int_between lo hi (clamp (Math_round (Fin q)) lo hi).
Proof. intros H. unfold Math_round. now apply clamp_int_between. Qed.

Lemma rgbToHsl_fin (qr qg qb : Q) :
  int_between 0 360 (rgbToHsl {| r := Fin qr; g := Fin qg; b := Fin qb |}).(h)
  /\ int_between 0 100 (rgbToHsl {| r := Fin qr; g := Fin qg; b := Fin qb |}).(s)
  /\ int_between 0 100 (rgbToHsl {| r := Fin qr; g := Fin qg; b := Fin qb |}).(l).
Proof.
  unfold rgbToHsl; cbn [r g b].
  destruct (unit_channel qr) as (ur & -> & Hr0 & Hr1).
  destruct (unit_channel qg) as (ug & -> & Hg0 & Hg1).
  destruct (unit_channel qb) as (ub & -> & Hb0 & Hb1).
  unfold Math_max3, Math_min3.
  destruct (Math_max_fin ur ug) as (m1 & -> & ? & ? & ?).
  destruct (Math_max_fin m1 ub) as (mx & -> & ? & ? & ?).
  destruct (Math_min_fin ur ug) as (n1 & -> & ? & ? & ?).
  destruct (Math_min_fin n1 ub) as (mn & -> & ? & ? & ?).
  match goal with
  | |- context [let '(h0, s0) := ?e in _] =>
      assert (Hfin : finite (fst e) /\ finite (snd e)); [| destruct e as [hv sv]]
  end.
  - change (Fin mx - Fin mn)%num with (Fin (mx - mn)).
    change (Fin mx + Fin mn)%num with (Fin (mx + mn)).
    change ((Fin (mx - mn) !== of_Z 0)%num) with (negb (Qeq_bool (mx - mn) 0)).
    destruct (Qeq_bool (mx - mn) 0) eqn:Ed; cbn [negb fst snd].
    + split; eexists; reflexivity.
    + assert (Hd : ~ (mx - mn == 0)%Q) by (rewrite <- Qeq_bool_iff; congruence).
      split.
      * cbn [sub add mul lift2]. rewrite !div_fin by exact Hd.
        destruct (Fin mx === Fin ur)%num; [| destruct (Fin mx === Fin ug)%num;
          [| destruct (Fin mx === Fin ub)%num]];
          try destruct (Fin ug <? Fin ub)%num; eexists; reflexivity.
      * assert (Hmx : (mx <= 1)%Q) by (destruct H4 as [E | E], H1 as [E' | E']; lra).
        assert (Hmn : (0 <= mn)%Q) by (destruct H10 as [E | E], H7 as [E' | E']; lra).
        assert (Hle : (mn <= mx)%Q) by lra.
        unfold of_Z. cbn [sub add mul lift2].
        destruct (_ >? _)%num; rewrite div_fin; try (eexists; reflexivity);
          qconst; lra.
  - destruct Hfin as [[hq Eh] [sq Es]]. cbn [fst snd] in Eh, Es. subst hv sv.
    cbn [h s l].
    change (Fin mx + Fin mn)%num with (Fin (mx + mn)).
    replace (Fin (mx + mn) / 2)%num with (Fin ((mx + mn) / 2))
      by (symmetry; apply (div_fin _ (inject_Z 2)); qconst; lra).
    cbn [mul lift2 of_Z].
    repeat split; apply clamp_round_fin; lia.
Qed.

(** C5, as the code has it. For integer channels of [[0, 255]], [rgbToHsl]
    returns integers: a hue of [[0, 360]], the upper end included, and a
    saturation and a lightness of [[0, 100]]. *)
Theorem rgbToHsl_ranges (c : RGB) (Hc : rgb_integral c) :
  int_between 0 360 (rgbToHsl c).(h)
  /\ int_between 0 100 (rgbToHsl c).(s)
  /\ int_between 0 100 (rgbToHsl c).(l).
Proof.
  destruct c as [cr cg cb].
  destruct Hc as ((zr & Er & _) & (zg & Eg & _) & (zb & Eb & _)).
  cbn [r g b] in Er, Eg, Eb. subst cr cg cb.
  apply rgbToHsl_fin.
Qed.

Lemma rgbToHsl_ranges_witness :
  int_between 0 360 (rgbToHsl (rgbOf 12 200 99)).(h)
  /\ int_between 0 100 (rgbToHsl (rgbOf 12 200 99)).(s)
  /\ int_between 0 100 (rgbToHsl (rgbOf 12 200 99)).(l).
Proof.
  apply (rgbToHsl_ranges (rgbOf 12 200 99)).
  unfold rgb_integral, int_between; simpl.
  repeat split; eexists; (split; [reflexivity | lia]).
Defined.

(** C5 as stated fails: the hue is not always below 360. For the red
    (255, 0, 1) the exact hue is 359.76, which rounds to 360, and the clamp
    to [[0, 360]] keeps it. *)
Lemma rgbToHsl_hue_reaches_360 :
  rgb_integral (rgbOf 255 0 1)
  /\ (rgbToHsl (rgbOf 255 0 1)).(h) = of_Z 360
  /\ ~ int_between 0 359 (rgbToHsl (rgbOf 255 0 1)).(h).
Proof.
  split; [| split].
  - unfold rgb_integral, int_between; simpl.
    repeat split; eexists; (split; [reflexivity | lia]).
  - vm_compute. reflexivity.
  - intros (z & E & Hz). vm_compute in E.
    injection E as E. lia.
Qed.

End RgbToHsl.

(* ------------------------------------------------------------------ *)
(** ** Contrast ratio *)

Section Contrast.

Local Open Scope R_scope.

Lemma gammaCorrect_range (c : R) : 0 <= c <= 1 -> 0 <= gammaCorrect c <= 1.
Proof.
  intros [H0 H1]. unfold gammaCorrect.
  destruct (Rle_dec c 0.03928) as [Hs | Hl].
  - lra.
  - assert (Hb : 0 < (c + 0.055) / 1.055 <= 1).
    { lra. }
    split.
    + unfold Rpower. left. apply exp_pos.
    + unfold Rpower. rewrite <- exp_0. 
      destruct Hb as [Hb0 [Hb1 | Hb1]].
      * left. apply exp_increasing.
        assert (ln ((c + 0.055) / 1.055) < 0).
        { rewrite <- ln_1. apply ln_increasing; lra. }
        nra.
      * rewrite Hb1, ln_1. right. f_equal. lra.
Qed.

Lemma channel_unit (q : Q) :
  (0 <= q)%Q -> (q <= 255)%Q -> 0 <= Q2R q / 255 <= 1.
Proof.
  intros H0 H1.
  apply Qreals.Qle_Rle in H0. apply Qreals.Qle_Rle in H1.
  replace (Q2R 0) with 0 in H0 by (unfold Q2R; simpl; lra).
  replace (Q2R 255) with 255 in H1 by (unfold Q2R; simpl; lra).
  lra.
Qed.

Lemma luminance_range (c : RGB) :
  rgb_in_gamut c ->
  exists lum, getRelativeLuminance c = Some lum /\ 0 <= lum <= 1.
Proof.
  destruct c as [[|rq] [|gq] [|bq]]; unfold rgb_in_gamut; simpl;
    intros (Hr & Hg & Hb); try tauto.
  destruct Hr as [Hr0 Hr1], Hg as [Hg0 Hg1], Hb as [Hb0 Hb1].
  pose proof (gammaCorrect_range _ (channel_unit rq Hr0 Hr1)) as Gr.
  pose proof (gammaCorrect_range _ (channel_unit gq Hg0 Hg1)) as Gg.
  pose proof (gammaCorrect_range _ (channel_unit bq Hb0 Hb1)) as Gb.
  eexists. split; [reflexivity | lra].
Qed.

Lemma ratio_bounds (hi lo : R) :
  0 <= lo -> lo <= hi -> hi <= 1 -> 1 <= (hi + 0.05) / (lo + 0.05) <= 21.
Proof.
  intros Hlo Hle Hhi.
  assert (Hd : 0 < lo + 0.05) by lra.
  assert (Hi : 0 < / (lo + 0.05)) by (apply Rinv_0_lt_compat; exact Hd).
  assert (He : (lo + 0.05) * / (lo + 0.05) = 1) by (apply Rinv_r; lra).
  unfold Rdiv. split; nra.
Qed.

Lemma luminance_black :
  getRelativeLuminance (rgbOf 0 0 0) = Some 0.
Proof.
  unfold getRelativeLuminance; simpl. f_equal.
  replace (Q2R (inject_Z 0) / 255) with 0 by (unfold Q2R; simpl; lra).
  unfold gammaCorrect. destruct (Rle_dec 0 0.03928); lra.
Qed.

Lemma luminance_white :
  getRelativeLuminance (rgbOf 255 255 255) = Some 1.
Proof.
  unfold getRelativeLuminance; simpl. f_equal.
  replace (Q2R (inject_Z 255) / 255) with 1 by (unfold Q2R; simpl; lra).
  unfold gammaCorrect. destruct (Rle_dec 1 0.03928); [lra |].
  replace ((1 + 0.055) / 1.055) with 1 by lra.
  unfold Rpower. rewrite ln_1, Rmult_0_r, exp_0. lra.
Qed.

(** C8. For RGB values [a] and [b] whose channels lie in [[0, 255]] the
    contrast ratio is a number of [[1, 21]]; of a colour with itself it is
    1, and of black with white it is 21. *)
Theorem contrast_ratio_range (a b : RGB)
    (Ha : rgb_in_gamut a) (Hb : rgb_in_gamut b) :
  (exists ratio, calculateContrastRatio a b = Some ratio /\ 1 <= ratio <= 21)
  /\ calculateContrastRatio a a = Some 1
  /\ calculateContrastRatio (rgbOf 0 0 0)
                            (rgbOf 255 255 255) = Some 21.
Proof.
  destruct (luminance_range a Ha) as (la & Ea & Ra).
  destruct (luminance_range b Hb) as (lb & Eb & Rb).
  unfold calculateContrastRatio.
  rewrite Ea, Eb, luminance_black, luminance_white.
  split; [| split].
  - eexists. split; [reflexivity |].
    apply ratio_bounds.
    + apply Rmin_glb; lra.
    + apply Rle_trans with la; [apply Rmin_l | apply Rmax_l].
    + apply Rmax_lub; lra.
  - f_equal. unfold Rmax, Rmin. destruct (Rle_dec la la); field; lra.
  - f_equal. rewrite Rmax_right, Rmin_left by lra. lra.
Qed.

Lemma contrast_ratio_range_witness :
  (exists ratio,
      calculateContrastRatio (rgbOf 255 0 0)
                             (rgbOf 0 0 255) = Some ratio
      /\ 1 <= ratio <= 21)
  /\ calculateContrastRatio (rgbOf 255 0 0)
                            (rgbOf 255 0 0) = Some 1
  /\ calculateContrastRatio (rgbOf 0 0 0)
                            (rgbOf 255 255 255) = Some 21.
Proof.
  apply (contrast_ratio_range (rgbOf 255 0 0)
                              (rgbOf 0 0 255));
    unfold rgb_in_gamut, num_between, Qle; simpl; lia.
Defined.

(** C9. The contrast ratio does not depend on the order of its two
    arguments, whatever the two RGB values are. *)
Theorem contrast_ratio_symmetric (a b : RGB) :
  calculateContrastRatio a b = calculateContrastRatio b a.
Proof.
  unfold calculateContrastRatio.
  destruct (getRelativeLuminance a) as [la |],
           (getRelativeLuminance b) as [lb |]; try reflexivity.
  simpl. rewrite (Rmax_comm la lb), (Rmin_comm la lb). reflexivity.
Qed.

End Contrast.

(* ------------------------------------------------------------------ *)
(** ** The analogous palette *)

Section Analogous.

(** Every analogous colour has the saturation and the lightness of the
    seed. *)
Lemma analogous_keeps_saturation_lightness (seed : Color) :
  Forall (fun c => c.(hsl).(s) = seed.(hsl).(s)
                   /\ c.(hsl).(l) = seed.(hsl).(l))
         (generateAnalogousPalette seed).
Proof.
  unfold generateAnalogousPalette.
  repeat constructor.
Qed.

(** C6 fails on the code. From the seed [#FF0000], of hue 0, the analogous
    hues are 330, 345, 0, 15 and 30: the two negative offsets wrap around,
    and [max - min] is 345, not at most 60.  A fresh palette reaches that
    seed when the draws are [redDraws]. *)
Theorem analogous_hue_range_wraps :
  map (fun c => c.(hsl).(h)) (generateAnalogousPalette pureRed)
  = [of_Z 330; of_Z 345; of_Z 0; of_Z 15; of_Z 30]
  /\ hueRange (generateAnalogousPalette pureRed) = of_Z 345
  /\ (hueRange (generateAnalogousPalette pureRed) <=? 60)%num = false
  /\ exists p,
       fst (generateRandomPalette None redDraws) = Some p
       /\ p.(harmonyRule) = Some analogous
       /\ map hex p.(colors)
          = ["#FF0080"; "#FF0040"; "#FF0000"; "#FF4000"; "#FF8000"]
       /\ hueRange p.(colors) = of_Z 345.
Proof.
  split; [vm_compute; reflexivity |].
  split; [vm_compute; reflexivity |].
  split; [vm_compute; reflexivity |].
  eexists. split; [vm_compute; reflexivity |].
  split; [reflexivity |]. split; vm_compute; reflexivity.
Qed.

End Analogous.

(* ------------------------------------------------------------------ *)
(** ** The analogous palette away from the wrap of the hue circle *)

Section AnalogousInRange.

Lemma Qfloor_between (q : Q) (k : Z) :
  (inject_Z k <= q)%Q -> (q < inject_Z (k + 1))%Q -> Qfloor q = k.
Proof.
  intros Hlo Hhi.
  pose proof (Qfloor_le q) as Hf. pose proof (Qlt_floor q) as Hc.
  assert (H1 : (inject_Z (Qfloor q) < inject_Z (k + 1))%Q)
    by (eapply Qle_lt_trans; eassumption).
  assert (H2 : (inject_Z k < inject_Z (Qfloor q + 1))%Q)
    by (eapply Qle_lt_trans; eassumption).
  rewrite <- Zlt_Qlt in H1, H2. lia.
Qed.

(** [x % 360] for [x] within [k] full turns of zero, [k] not negative. *)
Lemma rem_360 (x : Q) (k : Z) :
  0 <= k -> (inject_Z (360 * k) <= x)%Q -> (x < inject_Z (360 * (k + 1)))%Q ->
  exists y, rem (Fin x) 360 = Fin y /\ (y == x - inject_Z (360 * k))%Q.
Proof.
  intros Hk Hlo Hhi. unfold rem, of_Z.
  change (Qeq_bool (inject_Z 360) 0) with false. cbv iota.
  eexists. split; [reflexivity |].
  assert (Hq : (inject_Z k <= x / inject_Z 360)%Q
               /\ (x / inject_Z 360 < inject_Z (k + 1))%Q).
  { rewrite !inject_Z_mult in *.
    change (inject_Z 360) with 360%Q in *.
    split.
    - apply Qle_shift_div_l; [reflexivity | lra].
    - apply Qlt_shift_div_r; [reflexivity | lra]. }
  destruct Hq as [Hq1 Hq2].
  unfold Qtrunc.
  replace (Qle_bool 0 (x / inject_Z 360)) with true.
  - rewrite (Qfloor_between _ k Hq1 Hq2).
    rewrite inject_Z_mult. reflexivity.
  - symmetry. apply Qle_bool_iff.
    apply Qle_trans with (inject_Z k); [| exact Hq1].
    change 0%Q with (inject_Z 0). rewrite <- Zle_Qle. exact Hk.
Qed.

Lemma normalizeHue_in_range (x : Q) :
  (0 <= x)%Q -> (x < 360)%Q ->
  exists y, normalizeHue (Fin x) = Fin y /\ (y == x)%Q.
Proof.
  intros H0 H1. unfold normalizeHue.
  destruct (rem_360 x 0) as (y1 & -> & E1); [lia | exact H0 | exact H1 |].
  cbn [add lift2 of_Z].
  change (inject_Z (360 * 0)) with 0%Q in E1.
  change (inject_Z 360) with 360%Q.
  destruct (rem_360 (y1 + 360) 1) as (y2 & -> & E2).
  - lia.
  - change (inject_Z (360 * 1)) with 360%Q. lra.
  - change (inject_Z (360 * (1 + 1))) with 720%Q. lra.
  - exists y2. split; [reflexivity |].
    change (inject_Z (360 * 1)) with 360%Q in E2. lra.
Qed.

(** Where no offset hue leaves [[0, 360)], that is for a seed hue from 30
    to below 330, the hue range of the analogous palette is within 60. *)
Lemma analogous_hue_range_in_range (seed : Color) (q : Q) :
  seed.(hsl).(h) = Fin q -> (30 <= q)%Q -> (q < 330)%Q ->
  (hueRange (generateAnalogousPalette seed) <=? 60)%num = true.
Proof.
  intros Eh Hlo Hhi.
  unfold hueRange, generateAnalogousPalette. cbn [map hsl h createColorFromHsl].
  rewrite Eh. cbn [add lift2 of_Z].
  destruct (normalizeHue_in_range (q + inject_Z (-30))) as (a & -> & Ea);
    [change (inject_Z (-30)) with (-30)%Q; lra .. |].
  destruct (normalizeHue_in_range (q + inject_Z (-15))) as (b & -> & Eb);
    [change (inject_Z (-15)) with (-15)%Q; lra .. |].
  destruct (normalizeHue_in_range (q + inject_Z 0)) as (c & -> & Ec);
    [change (inject_Z 0) with 0%Q; lra .. |].
  destruct (normalizeHue_in_range (q + inject_Z 15)) as (d & -> & Ed);
    [change (inject_Z 15) with 15%Q; lra .. |].
  destruct (normalizeHue_in_range (q + inject_Z 30)) as (e & -> & Ee);
    [change (inject_Z 30) with 30%Q; lra .. |].
  change (inject_Z (-30)) with (-30)%Q in Ea.
  change (inject_Z (-15)) with (-15)%Q in Eb.
  change (inject_Z 0) with 0%Q in Ec.
  change (inject_Z 15) with 15%Q in Ed.
  change (inject_Z 30) with 30%Q in Ee.
  cbn [fold_left].
  destruct (Math_max_fin a b) as (m1 & -> & ? & ? & ?).
  destruct (Math_max_fin m1 c) as (m2 & -> & ? & ? & ?).
  destruct (Math_max_fin m2 d) as (m3 & -> & ? & ? & ?).
  destruct (Math_max_fin m3 e) as (m4 & -> & ? & ? & ?).
  destruct (Math_min_fin a b) as (n1 & -> & ? & ? & ?).
  destruct (Math_min_fin n1 c) as (n2 & -> & ? & ? & ?).
  destruct (Math_min_fin n2 d) as (n3 & -> & ? & ? & ?).
  destruct (Math_min_fin n3 e) as (n4 & -> & ? & ? & ?).
  cbn [sub lift2 le of_Z]. apply Qle_bool_iff.
  change (inject_Z 60) with 60%Q.
  repeat match goal with H : _ \/ _ |- _ => destruct H end; lra.
Qed.

End AnalogousInRange.

(* ------------------------------------------------------------------ *)
(** ** Palette regeneration keeps the locked colours *)

Section Regeneration.

Import Random.

Variable current : list Color.
Variable lockedColors : list Color.
Variable generatedColors : list Color.

Lemma merged_snoc (i : nat) (finalColors : list Color) (x : Color) :
  merged current i finalColors ->
  (forall c, nth_error current i = Some c -> c.(locked) = true -> x = c) ->
  merged current (S i) (finalColors ++ [x])%list.
Proof.
  intros [Hlen Hkeep] Hx. split.
  - rewrite length_app; simpl. lia.
  - intros j c Hj Hc Hl.
    destruct (Nat.eq_dec j i) as [-> | Hne].
    + rewrite nth_error_app2 by lia.
      rewrite Hlen, Nat.sub_diag. simpl. f_equal. now apply Hx.
    + rewrite nth_error_app1 by lia. apply Hkeep; [lia | assumption..].
Qed.

Lemma mergeStep_merged (i : nat) (st : list Color * nat) (g : rng) :
  merged current i (fst st) ->
  merged current (S i)
    (fst (fst (mergeStep current lockedColors generatedColors st i g))).
Proof.
  destruct st as [finalColors generatedIndex]; cbn [fst]. intros Hm.
  unfold mergeStep.
  destruct (nth_error current i) as [currentColor |] eqn:Ec.
  - destruct (locked currentColor) eqn:El.
    + cbn. apply merged_snoc; [exact Hm |]. congruence.
    + destruct (takeGenerated _ _ _) as [[picked |] gi].
      * destruct Hm as [Hlen Hkeep].
        replace (List.length (finalColors ++ [picked]) =? i)%nat with false.
        -- cbn. apply merged_snoc; [now split |]. congruence.
        -- symmetry. apply Nat.eqb_neq. rewrite length_app; simpl. lia.
      * destruct Hm as [Hlen Hkeep]. rewrite Hlen, Nat.eqb_refl.
        unfold bind. destruct (generateRandomColor g) as [c g'].
        cbn. apply merged_snoc; [now split |]. congruence.
  - destruct (takeGenerated _ _ _) as [[picked |] gi].
    + destruct Hm as [Hlen Hkeep].
      replace (List.length (finalColors ++ [picked]) =? i)%nat with false.
      * cbn. apply merged_snoc; [now split |]. congruence.
      * symmetry. apply Nat.eqb_neq. rewrite length_app; simpl. lia.
    + destruct Hm as [Hlen Hkeep]. rewrite Hlen, Nat.eqb_refl.
      unfold bind. destruct (generateRandomColor g) as [c g'].
      cbn. apply merged_snoc; [now split |]. congruence.
Qed.

Lemma mergeLoop_merged (n i : nat) (st : list Color * nat) (g : rng) :
  merged current i (fst st) ->
  merged current (i + n)
    (fst (fst (mergeLoop current lockedColors generatedColors (seq i n) st g))).
Proof.
  revert i st g. induction n as [| n IH]; intros i st g Hm.
  - cbn. now rewrite Nat.add_0_r.
  - cbn [seq mergeLoop]. unfold bind.
    pose proof (mergeStep_merged i st g Hm) as Hs.
    destruct (mergeStep current lockedColors generatedColors st i g)
      as [st' g'].
    cbn [fst] in Hs. rewrite <- Nat.add_succ_comm. now apply IH.
Qed.

End Regeneration.

Section RegenerationResult.
Import Random.

Lemma floor_unit_scaled (x : Q) (n : Z) :
  (0 < n) -> (0 <= x)%Q -> (x < 1)%Q ->
  0 <= Qfloor (x * inject_Z n) < n.
Proof.
  intros Hn H0 H1. split.
  - change 0 with (Qfloor 0). apply Qfloor_resp_le.
    apply Qmult_le_0_compat; [exact H0 |].
    change 0%Q with (inject_Z 0). rewrite <- Zle_Qle. lia.
  - rewrite Zlt_Qlt.
    apply Qle_lt_trans with (x * inject_Z n)%Q; [apply Qfloor_le |].
    rewrite <- (Qmult_1_l (inject_Z n)) at 2.
    apply Qmult_lt_compat_r; [| exact H1].
    change 0%Q with (inject_Z 0). rewrite <- Zlt_Qlt. lia.
Qed.

Lemma array_get_of_Z {A : Type} (xs : list A) (z : Z) :
  0 <= z -> array_get xs (of_Z z) = nth_error xs (Z.to_nat z).
Proof.
  intros Hz. unfold array_get, of_Z. rewrite Qfloor_Z.
  destruct (Z.leb_spec 0 z); [| lia].
  now rewrite Qeq_bool_refl.
Qed.

Lemma selectRandomHarmonyRule_defined (g : rng) :
  unit_draws g -> exists rule, fst (selectRandomHarmonyRule g) = Some rule.
Proof.
  intros Hg. destruct (Hg g.(pos)) as [H0 H1].
  unfold selectRandomHarmonyRule, bind, Math_random, ret; cbn [fst].
  pose proof (floor_unit_scaled _ 5 ltac:(lia) H0 H1) as Hz.
  change (Math_floor _)
    with (of_Z (Qfloor (g.(draws) g.(pos) * inject_Z 5))).
  rewrite array_get_of_Z by lia.
  set (z := Qfloor _) in *.
  assert (Hn : (Z.to_nat z < 5)%nat) by lia.
  destruct (Z.to_nat z) as [| [| [| [| [| k]]]]]; cbn; eauto; lia.
Qed.

Lemma generatePaletteByRule_five (baseColor : Color) (rule : HarmonyRule) :
  exists generated,
    generatePaletteByRule baseColor (Some rule) = Some generated
    /\ List.length generated = 5%nat.
Proof.
  destruct rule; cbn [generatePaletteByRule]; eexists; split;
    reflexivity.
Qed.

Lemma padToFive_full (finalColors : list Color) (g : rng) :
  List.length finalColors = 5%nat ->
  padToFive 5 finalColors g = (finalColors, g).
Proof.
  intros H. cbn [padToFive]. rewrite H. reflexivity.
Qed.

(** C1. From a palette of exactly five colours, and with draws in
    [[0, 1)], [generateRandomPalette] returns a palette of exactly five
    colours in which every colour that was locked is, unchanged, at its
    index. *)
Theorem regeneration_keeps_locked (p : Palette) (g : rng)
    (Hfive : List.length p.(colors) = 5%nat) (Hg : unit_draws g) :
  exists p',
    fst (generateRandomPalette (Some p) g) = Some p'
    /\ List.length p'.(colors) = 5%nat
    /\ forall i c, nth_error p.(colors) i = Some c -> c.(locked) = true ->
                   nth_error p'.(colors) i = Some c.
Proof.
  destruct (selectRandomHarmonyRule_defined g Hg) as [rule Hrule].
  unfold generateRandomPalette, bind.
  destruct (selectRandomHarmonyRule g) as [chosen g1].
  cbn [fst] in Hrule. subst chosen.
  rewrite Hfive. cbn [Nat.eqb].
  destruct (filter locked p.(colors)) as [| baseColor others] eqn:Ef.
  - cbn [List.length Nat.eqb]. unfold freshPalette, bind.
    destruct (generateRandomColor g1) as [seed g2].
    destruct (generatePaletteByRule_five seed rule) as (generated & -> & Hlen).
    cbn. eexists. split; [reflexivity |]. split; [exact Hlen |].
    intros i c Hc Hl. exfalso.
    assert (Hin : In c (filter locked p.(colors))).
    { apply filter_In. split; [now apply nth_error_In with i | exact Hl]. }
    rewrite Ef in Hin. exact Hin.
  - cbn [List.length Nat.eqb].
    destruct (5 <=? S (List.length others))%nat eqn:Eall.
    + cbn. eexists. split; [reflexivity |]. split; [exact Hfive |]. auto.
    + destruct (generatePaletteByRule_five baseColor rule)
        as (generated & -> & Hlen).
      pose proof (mergeLoop_merged p.(colors) (baseColor :: others) generated
                    5 0 ([], O) g1) as Hm.
      destruct (mergeLoop _ _ _ (seq 0 5) _ g1) as [[finalColors gi] g2].
      cbn [fst] in Hm |- *.
      assert (H0 : merged p.(colors) 0 []) by (split; [reflexivity | lia]).
      specialize (Hm H0). cbn [Nat.add] in Hm. destruct Hm as [Hlen5 Hkeep].
      rewrite (padToFive_full finalColors g2 Hlen5). unfold ret. cbn [fst].
      rewrite firstn_all2 by lia.
      eexists. split; [reflexivity |]. split; [exact Hlen5 |].
      intros i c Hc Hl. apply Hkeep; [| assumption..].
      rewrite <- Hfive. apply nth_error_Some. congruence.
Qed.

Lemma regeneration_keeps_locked_witness :
  exists p',
    fst (generateRandomPalette (Some samplePalette) thirds) = Some p'
    /\ List.length p'.(colors) = 5%nat
    /\ forall i c, nth_error samplePalette.(colors) i = Some c ->
                   c.(locked) = true -> nth_error p'.(colors) i = Some c.
Proof.
  apply (regeneration_keeps_locked samplePalette thirds).
  - reflexivity.
  - intros n. split; reflexivity || discriminate.
Defined.

End RegenerationResult.

(* ------------------------------------------------------------------ *)
(** ** Splitting strings *)

Section Splitting.

Lemma forallb_app (p : ascii -> bool) (a b : string) :
  string_forallb p (a ++ b) = string_forallb p a && string_forallb p b.
Proof.
  induction a as [| c a IH]; cbn; [reflexivity |].
  rewrite IH. apply andb_assoc.
Qed.

Lemma forallb_weaken (p q : ascii -> bool) (a : string) :
  (forall c, p c = true -> q c = true) ->
  string_forallb p a = true -> string_forallb q a = true.
Proof.
  intros Hpq. induction a as [| c a IH]; cbn; [reflexivity |].
  intros H. apply andb_true_iff in H. destruct H as [Hc Ha].
  now rewrite (Hpq c Hc), (IH Ha).
Qed.

Lemma split_without (sep : ascii) (a : string) :
  string_forallb (fun c => negb (Ascii.eqb c sep)) a = true ->
  split sep a = [a].
Proof.
  induction a as [| c a IH]; cbn; [reflexivity |].
  intros H. apply andb_true_iff in H. destruct H as [Hc Ha].
  apply negb_true_iff in Hc. rewrite Hc, (IH Ha). reflexivity.
Qed.

Lemma split_app (sep : ascii) (a b : string) :
  string_forallb (fun c => negb (Ascii.eqb c sep)) a = true ->
  split sep (a ++ String sep b) = a :: split sep b.
Proof.
  induction a as [| c a IH]; cbn.
  - intros _. now rewrite Ascii.eqb_refl.
  - intros H. apply andb_true_iff in H. destruct H as [Hc Ha].
    apply negb_true_iff in Hc. rewrite Hc, (IH Ha). reflexivity.
Qed.

Lemma split_pair_app (a b : string) :
  string_forallb (fun c => negb (Ascii.eqb c "=")) a = true ->
  URLSearchParams.split_pair (a ++ String "=" b) = (a, b).
Proof.
  induction a as [| c a IH]; cbn.
  - reflexivity.
  - intros H. apply andb_true_iff in H. destruct H as [Hc Ha].
    apply negb_true_iff in Hc. rewrite Hc, (IH Ha). reflexivity.
Qed.

Lemma append_assoc (a b c : string) : (a ++ b) ++ c = a ++ (b ++ c).
Proof. induction a as [| x a IH]; cbn; [reflexivity | now rewrite IH]. Qed.

End Splitting.

(* ------------------------------------------------------------------ *)
(** ** [URLSearchParams]: parsing what was serialized *)

Section FormEncoding.

Import URLSearchParams.

Lemma encode_byte_plain (c : ascii) :
  string_forallb is_plain (encode_byte c) = true.
Proof.
  destruct c as [[] [] [] [] [] [] [] []]; vm_compute; reflexivity.
Qed.

Lemma is_plain_not_reserved (c : ascii) :
  is_plain c = true ->
  Ascii.eqb c "&" = false /\ Ascii.eqb c "=" = false
  /\ Ascii.eqb c "?" = false /\ Ascii.eqb c "#" = false.
Proof.
  destruct c as [[] [] [] [] [] [] [] []]; vm_compute; intros H;
    first [discriminate H | repeat split].
Qed.

Lemma encode_plain (s : string) : string_forallb is_plain (encode s) = true.
Proof.
  induction s as [| c s IH]; cbn; [reflexivity |].
  now rewrite forallb_app, encode_byte_plain, IH.
Qed.

Lemma percent_decode_other (c : ascii) (t : string) :
  Ascii.eqb c "%" = false ->
  percent_decode (String c t) = String c (percent_decode t).
Proof.
  intros H. destruct t as [| x [| y t]]; cbn; rewrite ?H; reflexivity.
Qed.

Lemma decode_encode_byte (c : ascii) (t : string) :
  percent_decode (plus_to_space (encode_byte c) ++ t)
  = String c (percent_decode t).
Proof.
  destruct c as [[] [] [] [] [] [] [] []];
    first [ reflexivity
          | apply percent_decode_other; reflexivity ].
Qed.

Lemma plus_to_space_app (a b : string) :
  plus_to_space (a ++ b) = plus_to_space a ++ plus_to_space b.
Proof. induction a as [| c a IH]; cbn; [reflexivity | now rewrite IH]. Qed.

Lemma decode_encode (s : string) : decode (encode s) = s.
Proof.
  unfold decode. induction s as [| c s IH]; cbn [encode]; [reflexivity |].
  rewrite plus_to_space_app, decode_encode_byte. now rewrite IH.
Qed.

End FormEncoding.

Section ParamsRoundTrip.

Import URLSearchParams.

(** The text of one pair in [toString]. *)
Local Abbreviation piece p := (encode (fst p) ++ "=" ++ encode (snd p)).

Lemma encode_without (sep : ascii) (s : string) :
  is_plain sep = false ->
  string_forallb (fun c => negb (Ascii.eqb c sep)) (encode s) = true.
Proof.
  intros Hsep. apply forallb_weaken with (p := is_plain); [| apply encode_plain].
  intros c Hc. apply negb_true_iff.
  destruct (Ascii.eqb_spec c sep) as [-> | _]; [congruence | reflexivity].
Qed.

Lemma piece_without_amp (p : string * string) :
  string_forallb (fun c => negb (Ascii.eqb c "&")) (piece p) = true.
Proof.
  rewrite !forallb_app, !encode_without by reflexivity. reflexivity.
Qed.

Lemma parse_pair_piece (p : string * string) : parse_pair (piece p) = p.
Proof.
  unfold parse_pair.
  change (encode (fst p) ++ "=" ++ encode (snd p))
    with (encode (fst p) ++ String "=" (encode (snd p))).
  rewrite split_pair_app by (apply encode_without; reflexivity).
  rewrite !decode_encode. now destruct p.
Qed.

Lemma piece_not_empty (p : string * string) (t : string) :
  is_empty (piece p ++ t) = false.
Proof. destruct (encode (fst p)); reflexivity. Qed.

Lemma strip_question_other (c : ascii) (t : string) :
  Ascii.eqb c "?" = false -> strip_question (String c t) = String c t.
Proof.
  destruct c as [[] [] [] [] [] [] [] []]; intros H;
    first [reflexivity | discriminate H].
Qed.

Lemma strip_hash_other (c : ascii) (t : string) :
  Ascii.eqb c "#" = false -> strip_hash (String c t) = String c t.
Proof.
  destruct c as [[] [] [] [] [] [] [] []]; intros H;
    first [reflexivity | discriminate H].
Qed.

Lemma piece_head (p : string * string) (t : string) :
  strip_question (piece p ++ t) = piece p ++ t
  /\ strip_hash (piece p ++ t) = piece p ++ t.
Proof.
  pose proof (encode_plain (fst p)) as Hp.
  destruct (encode (fst p)) as [| c e]; [split; reflexivity |].
  cbn in Hp. apply andb_true_iff in Hp. destruct Hp as [Hc _].
  apply is_plain_not_reserved in Hc. destruct Hc as (_ & _ & Hq & Hh).
  cbn [append]. split.
  - now apply strip_question_other.
  - now apply strip_hash_other.
Qed.

Lemma toString_cons (p : string * string) (ps : params) :
  exists t, toString (p :: ps) = piece p ++ t.
Proof.
  unfold toString. destruct ps as [| q ps]; cbn [map join].
  - exists EmptyString. induction (encode (fst p) ++ "=" ++ encode (snd p));
      cbn; [reflexivity | now f_equal].
  - eexists. reflexivity.
Qed.

Lemma split_toString (p : string * string) (ps : params) :
  split "&" (toString (p :: ps)) = map (fun p => piece p) (p :: ps).
Proof.
  unfold toString. revert p. induction ps as [| q ps IH]; intros p.
  - cbn [map join]. apply split_without, piece_without_amp.
  - change (join "&" (map (fun p => piece p) (p :: q :: ps)))
      with (piece p ++ String "&" (join "&" (map (fun p => piece p) (q :: ps)))).
    rewrite split_app by apply piece_without_amp.
    rewrite IH. reflexivity.
Qed.

(** Parsing the serialization of a list of pairs gives the list back. *)
Lemma parse_toString (ps : params) : parse (toString ps) = ps.
Proof.
  destruct ps as [| p ps]; [reflexivity |].
  unfold parse.
  destruct (toString_cons p ps) as [t Et].
  pose proof (piece_head p t) as [Hq _]. rewrite <- Et in Hq. rewrite Hq.
  rewrite split_toString. clear.
  induction (p :: ps) as [| q qs IH]; [reflexivity |].
  cbn [map filter].
  pose proof (piece_not_empty q EmptyString) as Hne.
  replace (piece q ++ "") with (piece q) in Hne.
  - rewrite Hne. cbn [negb map]. now rewrite parse_pair_piece, IH.
  - clear. induction (encode (fst q) ++ "=" ++ encode (snd q));
      cbn; [reflexivity | now f_equal].
Qed.

End ParamsRoundTrip.

(* ------------------------------------------------------------------ *)
(** ** Decoding a palette from a URL hash *)

Section Decoding.

Import URLSearchParams.

Lemma is_empty_spec (s : string) : is_empty s = true <-> s = EmptyString.
Proof. destruct s; cbn; split; congruence. Qed.

Lemma decodeColors_some (tokens : list string) (cs : list Color) :
  decodeColors tokens = Some cs ->
  Forall (fun token => is_hex6 token = true) tokens
  /\ Forall2 spells tokens cs
  /\ Forall (fun c => c.(locked) = false) cs.
Proof.
  revert cs. induction tokens as [| token rest IH]; cbn; intros cs H.
  - injection H as <-. repeat constructor.
  - unfold decodeColor in H.
    destruct (is_hex6 token) eqn:Eh; cbn in H; [| discriminate H].
    destruct (decodeColors rest) as [cs' |]; [| discriminate H].
    injection H as <-. destruct (IH cs' eq_refl) as (Ht & Hs & Hl).
    repeat split; constructor; try assumption; [| reflexivity].
    repeat split.
Qed.

Lemma decodeColors_none (tokens : list string) :
  decodeColors tokens = None <->
  exists token, In token tokens /\ is_hex6 token = false.
Proof.
  induction tokens as [| token rest IH]; cbn.
  - split; [discriminate | intros (t & [] & _)].
  - unfold decodeColor. destruct (is_hex6 token) eqn:Eh; cbn.
    + destruct (decodeColors rest) as [cs |].
      * split; [discriminate |].
        intros (t & [<- | Hin] & Ht); [congruence |].
        assert (E : Some cs = None) by (apply IH; eauto).
        discriminate E.
      * split; [| reflexivity]. intros _.
        destruct (proj1 IH eq_refl) as (t & Hin & Ht). eauto.
    + split; [| reflexivity]. intros _. eauto.
Qed.

Lemma setLocked_spells (tokens : list string) (cs : list Color)
    (i : nat) (v : bool) :
  Forall2 spells tokens cs -> Forall2 spells tokens (setLocked cs i v).
Proof.
  intros H. revert i. induction H as [| token c tokens cs Hc Hrest IH];
    intros i; [destruct i; constructor |].
  destruct i as [| i]; cbn; constructor; auto.
Qed.

Lemma applyLocks_spells (locksParam : string) (tokens : list string)
    (cs : list Color) :
  Forall2 spells tokens cs -> Forall2 spells tokens (applyLocks locksParam cs).
Proof.
  unfold applyLocks. generalize (seq 0 5). intros positions. revert cs.
  induction positions as [| i positions IH]; cbn; intros cs H; [exact H |].
  apply IH. now apply setLocked_spells.
Qed.

(** What [decodePaletteFromUrl] returns, case by case. *)
Lemma decode_cases (urlHash : string) :
  match decodePaletteFromUrl urlHash with
  | None =>
      strip_hash urlHash = EmptyString
      \/ get "colors" (paramsOf urlHash) = None
      \/ exists colorsParam,
           get "colors" (paramsOf urlHash) = Some colorsParam
           /\ (List.length (split "," colorsParam) <> 5%nat
               \/ exists token, In token (split "," colorsParam)
                                /\ is_hex6 token = false)
  | Some p =>
      exists colorsParam cs,
        strip_hash urlHash <> EmptyString
        /\ get "colors" (paramsOf urlHash) = Some colorsParam
        /\ List.length (split "," colorsParam) = 5%nat
        /\ decodeColors (split "," colorsParam) = Some cs
        /\ p.(colors)
           = match get "locks" (paramsOf urlHash) with
             | Some locksParam =>
                 if is_locks5 locksParam then applyLocks locksParam cs else cs
             | None => cs
             end
        /\ p.(harmonyRule)
           = match get "harmony" (paramsOf urlHash) with
             | Some harmonyParam => ruleOfName harmonyParam
             | None => None
             end
  end.
Proof.
  unfold decodePaletteFromUrl. fold (paramsOf urlHash).
  destruct (is_empty (strip_hash urlHash)) eqn:Ee.
  { left. now apply is_empty_spec. }
  assert (Hne : strip_hash urlHash <> EmptyString).
  { intros E. apply is_empty_spec in E. congruence. }
  destruct (get "colors" (paramsOf urlHash)) as [colorsParam |];
    [| right; left; reflexivity].
  destruct (is_empty colorsParam) eqn:Ec.
  { right; right. exists colorsParam. split; [reflexivity |].
    apply is_empty_spec in Ec. subst colorsParam. left. cbn. lia. }
  destruct (List.length (split "," colorsParam) =? 5)%nat eqn:El; cbn [negb].
  2: { right; right. exists colorsParam. split; [reflexivity |].
       left. now apply Nat.eqb_neq. }
  apply Nat.eqb_eq in El.
  destruct (decodeColors (split "," colorsParam)) as [cs |] eqn:Ed.
  2: { right; right. exists colorsParam. split; [reflexivity |].
       right. now apply decodeColors_none. }
  exists colorsParam, cs. repeat split; try assumption; cbn [colors harmonyRule].
  - destruct (get "locks" (paramsOf urlHash)) as [locksParam |];
      [| reflexivity].
    destruct (is_empty locksParam) eqn:Ek.
    + apply is_empty_spec in Ek. now subst locksParam.
    + now destruct (is_locks5 locksParam).
  - destruct (get "harmony" (paramsOf urlHash)) as [harmonyParam |];
      [| reflexivity].
    destruct (is_empty harmonyParam) eqn:Ek; [| reflexivity].
    apply is_empty_spec in Ek. now subst harmonyParam.
Qed.

Lemma ruleOfName_some (name : string) (rule : HarmonyRule) :
  ruleOfName name = Some rule -> name = rule_name rule.
Proof.
  unfold ruleOfName. intros H. apply find_some in H.
  destruct H as [_ H]. apply String.eqb_eq in H. now symmetry.
Qed.

Lemma ruleOfName_none (name : string) :
  (forall rule, name <> rule_name rule) -> ruleOfName name = None.
Proof.
  intros H. destruct (ruleOfName name) as [rule |] eqn:E; [| reflexivity].
  apply ruleOfName_some in E. now destruct (H rule).
Qed.

Lemma setLocked_length (cs : list Color) (i : nat) (v : bool) :
  List.length (setLocked cs i v) = List.length cs.
Proof.
  revert i. induction cs as [| c cs IH]; intros [| i]; cbn; auto.
Qed.

(** C4. [decodePaletteFromUrl] returns [null] exactly when the hash, its
    leading [#] stripped, is empty, or has no [colors] key, or the
    comma-split value of [colors] has not five tokens, or one of the tokens
    is not six hexadecimal digits.  When it returns a palette, a [locks]
    value that is not five binary digits leaves every colour unlocked, and a
    [harmony] value that is no rule name leaves the rule out. *)
Theorem decode_null_iff (urlHash : string) :
  (decodePaletteFromUrl urlHash = None <->
     strip_hash urlHash = EmptyString
     \/ get "colors" (paramsOf urlHash) = None
     \/ exists colorsParam,
          get "colors" (paramsOf urlHash) = Some colorsParam
          /\ (List.length (split "," colorsParam) <> 5%nat
              \/ exists token, In token (split "," colorsParam)
                               /\ is_hex6 token = false))
  /\ (forall p, decodePaletteFromUrl urlHash = Some p ->
        (forall locksParam,
            get "locks" (paramsOf urlHash) = Some locksParam ->
            is_locks5 locksParam = false ->
            Forall (fun c => c.(locked) = false) p.(colors))
        /\ (forall harmonyParam,
              get "harmony" (paramsOf urlHash) = Some harmonyParam ->
              (forall rule, harmonyParam <> rule_name rule) ->
              p.(harmonyRule) = None)).
Proof.
  pose proof (decode_cases urlHash) as Hcases.
  split; [split |].
  - intros E. now rewrite E in Hcases.
  - intros Hbad.
    destruct (decodePaletteFromUrl urlHash) as [p |]; [exfalso | reflexivity].
    destruct Hcases as (colorsParam & cs & Hne & Hget & Hlen & Hdec & _).
    destruct Hbad as [He | [Hnone | (cp & Hcp & Hbad)]];
      [contradiction | congruence |].
    rewrite Hget in Hcp. injection Hcp as <-.
    destruct Hbad as [Hl | Hbad]; [contradiction |].
    apply decodeColors_none in Hbad. congruence.
  - intros p Ep. rewrite Ep in Hcases.
    destruct Hcases as (colorsParam & cs & _ & _ & _ & Hdec & Hcolors & Hrule).
    split.
    + intros locksParam Hget Hbad. rewrite Hget, Hbad in Hcolors.
      rewrite Hcolors. now apply decodeColors_some in Hdec.
    + intros harmonyParam Hget Hbad. rewrite Hget in Hrule.
      rewrite Hrule. now apply ruleOfName_none.
Qed.

(** C10. In a palette that [decodePaletteFromUrl] returns, the colours
    match the five six-digit tokens of [colors] one by one: the hex is [#]
    and the token in upper case, the RGB is [hexToRgb] of that hex and the
    HSL is [rgbToHsl] of that RGB; and a rule, when there is one, is the
    rule that the [harmony] value names. *)
Theorem decode_colors_derived (urlHash : string) (p : Palette)
    (Hdec : decodePaletteFromUrl urlHash = Some p) :
  exists colorsParam,
    get "colors" (paramsOf urlHash) = Some colorsParam
    /\ List.length (split "," colorsParam) = 5%nat
    /\ Forall (fun token => is_hex6 token = true) (split "," colorsParam)
    /\ Forall2 spells (split "," colorsParam) p.(colors)
    /\ forall rule, p.(harmonyRule) = Some rule ->
                    get "harmony" (paramsOf urlHash) = Some (rule_name rule).
Proof.
  pose proof (decode_cases urlHash) as Hcases. rewrite Hdec in Hcases.
  destruct Hcases as (colorsParam & cs & _ & Hget & Hlen & Hcs & Hcolors & Hrule).
  exists colorsParam. apply decodeColors_some in Hcs.
  destruct Hcs as (Htok & Hspell & _).
  repeat split; try assumption.
  - rewrite Hcolors.
    destruct (get "locks" (paramsOf urlHash)) as [locksParam |]; [| exact Hspell].
    destruct (is_locks5 locksParam); [| exact Hspell].
    now apply applyLocks_spells.
  - intros rule Er. rewrite Er in Hrule.
    destruct (get "harmony" (paramsOf urlHash)) as [harmonyParam |];
      [| discriminate Hrule].
    symmetry in Hrule. apply ruleOfName_some in Hrule. now subst.
Qed.

Lemma decode_colors_derived_witness :
  exists p,
    decodePaletteFromUrl sampleHash = Some p
    /\ exists colorsParam,
         get "colors" (paramsOf sampleHash) = Some colorsParam
         /\ List.length (split "," colorsParam) = 5%nat
         /\ Forall (fun token => is_hex6 token = true) (split "," colorsParam)
         /\ Forall2 spells (split "," colorsParam) p.(colors)
         /\ forall rule, p.(harmonyRule) = Some rule ->
                         get "harmony" (paramsOf sampleHash)
                         = Some (rule_name rule).
Proof.
  eexists. split; [vm_compute; reflexivity |].
  apply (decode_colors_derived sampleHash). vm_compute. reflexivity.
Defined.

End Decoding.

(* ------------------------------------------------------------------ *)
(** ** Encoding a palette and decoding it again *)

Section RoundTrip.

Import URLSearchParams.

Lemma canonical_hex_inv (hx : string) :
  is_canonical_hex hx = true ->
  exists token,
    hx = String "#" token
    /\ String.length token = 6%nat
    /\ string_forallb is_upper_hex_char token = true.
Proof.
  destruct hx as [| c token]; [discriminate |].
  destruct (Ascii.eqb_spec c "#") as [-> | Hne].
  - cbn. intros H. apply andb_true_iff in H. destruct H as [Hl Hc].
    apply Nat.eqb_eq in Hl. eauto.
  - intros H. exfalso. revert H Hne.
    destruct c as [[] [] [] [] [] [] [] []]; first [discriminate | congruence].
Qed.

Lemma upper_hex_char_facts (c : ascii) :
  is_upper_hex_char c = true ->
  is_hex_char c = true /\ upper_char c = c /\ negb (Ascii.eqb c ",") = true.
Proof.
  destruct c as [[] [] [] [] [] [] [] []]; vm_compute; intros H;
    first [discriminate H | repeat split].
Qed.

Lemma toUpperCase_upper_hex (token : string) :
  string_forallb is_upper_hex_char token = true -> toUpperCase token = token.
Proof.
  induction token as [| c token IH]; cbn; [reflexivity |].
  intros H. apply andb_true_iff in H. destruct H as [Hc Ht].
  apply upper_hex_char_facts in Hc. destruct Hc as (_ & -> & _).
  now rewrite IH.
Qed.

Lemma decodeColors_canonical (cs : list Color) :
  Forall (fun c => is_canonical_hex c.(hex) = true) cs ->
  decodeColors (map (fun c => remove_first_hash c.(hex)) cs)
  = Some (map (fun c => unlock (rederive c)) cs).
Proof.
  induction 1 as [| c cs Hc _ IH]; [reflexivity |].
  cbn [map decodeColors]. rewrite IH.
  apply canonical_hex_inv in Hc. destruct Hc as (token & E & Hl & Hu).
  unfold decodeColor, rederive, unlock. rewrite E. cbn [remove_first_hash].
  rewrite Ascii.eqb_refl.
  assert (Hh : is_hex6 token = true).
  { unfold is_hex6. rewrite Hl. cbn.
    apply forallb_weaken with (p := is_upper_hex_char); [| exact Hu].
    intros x Hx. now apply upper_hex_char_facts in Hx. }
  rewrite Hh, (toUpperCase_upper_hex token Hu). reflexivity.
Qed.

Lemma split_join_comma (tokens : list string) :
  tokens <> [] ->
  Forall (fun t => string_forallb (fun c => negb (Ascii.eqb c ",")) t = true)
         tokens ->
  split "," (join "," tokens) = tokens.
Proof.
  intros Hne H. induction H as [| t ts Ht Hts IH]; [congruence |].
  destruct ts as [| u ts].
  - cbn [join]. now apply split_without.
  - change (join "," (t :: u :: ts)) with (t ++ String "," (join "," (u :: ts))).
    rewrite split_app by exact Ht. rewrite IH by discriminate. reflexivity.
Qed.

Lemma canonical_token_without_comma (c : Color) :
  is_canonical_hex c.(hex) = true ->
  string_forallb (fun x => negb (Ascii.eqb x ","))
                 (remove_first_hash c.(hex)) = true
  /\ is_empty (remove_first_hash c.(hex)) = false.
Proof.
  intros Hc. apply canonical_hex_inv in Hc.
  destruct Hc as (token & -> & Hl & Hu).
  cbn [remove_first_hash]. rewrite Ascii.eqb_refl. split.
  - apply forallb_weaken with (p := is_upper_hex_char); [| exact Hu].
    intros x Hx. now apply upper_hex_char_facts in Hx.
  - destruct token; [discriminate Hl | reflexivity].
Qed.

Lemma locks_round_trip (cs : list Color) :
  List.length cs = 5%nat ->
  let locks := join "" (map (fun c => if c.(locked) then "1" else "0") cs) in
  is_empty locks = false
  /\ is_locks5 locks = true
  /\ applyLocks locks (map (fun c => unlock (rederive c)) cs)
     = map rederive cs.
Proof.
  intros H.
  destruct cs as [| [h1 r1 s1 k1] [| [h2 r2 s2 k2] [| [h3 r3 s3 k3]
              [| [h4 r4 s4 k4] [| [h5 r5 s5 k5] [| c6 cs]]]]]];
    try discriminate H.
  destruct k1, k2, k3, k4, k5; repeat split.
Qed.

Lemma ruleOfName_rule_name (rule : HarmonyRule) :
  ruleOfName (rule_name rule) = Some rule.
Proof. destruct rule; reflexivity. Qed.

(** Decoding the serialization of the three parameters. *)
Lemma decode_serialized (cs : list Color) (rule : option HarmonyRule)
    (ps : params) :
  List.length cs = 5%nat ->
  Forall (fun c => is_canonical_hex c.(hex) = true) cs ->
  ps <> [] ->
  get "colors" ps
  = Some (join "," (map (fun c => remove_first_hash c.(hex)) cs)) ->
  get "locks" ps
  = Some (join "" (map (fun c => if c.(locked) then "1" else "0") cs)) ->
  get "harmony" ps = option_map rule_name rule ->
  decodePaletteFromUrl (toString ps)
  = Some {| colors := map rederive cs; harmonyRule := rule |}.
Proof.
  intros Hfive Hhex Hps Hcolors Hlocks Hharmony.
  unfold decodePaletteFromUrl.
  destruct ps as [| p0 ps']; [congruence |].
  destruct (toString_cons p0 ps') as [t Et].
  pose proof (piece_head p0 t) as [_ Hh]. rewrite <- Et in Hh. rewrite Hh.
  replace (is_empty (toString (p0 :: ps'))) with false
    by (rewrite Et; symmetry; apply piece_not_empty).
  rewrite parse_toString, Hcolors.
  assert (Hsplit : split "," (join "," (map (fun c => remove_first_hash c.(hex)) cs))
                   = map (fun c => remove_first_hash c.(hex)) cs).
  { apply split_join_comma.
    - destruct cs; [discriminate Hfive | discriminate].
    - apply Forall_map. eapply Forall_impl; [| exact Hhex].
      intros c Hc. now apply canonical_token_without_comma in Hc. }
  replace (is_empty (join "," (map (fun c => remove_first_hash c.(hex)) cs)))
    with false.
  2: { destruct cs as [| c cs']; [discriminate Hfive |].
       apply Forall_inv in Hhex. apply canonical_token_without_comma in Hhex.
       destruct Hhex as [_ Hne]. cbn [map join].
       destruct (remove_first_hash (hex c)); [discriminate Hne |].
       destruct (map _ cs'); reflexivity. }
  rewrite Hsplit, length_map, Hfive. cbn [Nat.eqb negb].
  rewrite (decodeColors_canonical cs Hhex), Hlocks.
  destruct (locks_round_trip cs Hfive) as (-> & -> & ->). cbn [negb].
  rewrite Hharmony. destruct rule as [rule |]; cbn [option_map]; [| reflexivity].
  rewrite ruleOfName_rule_name.
  now destruct rule.
Qed.

(** C2. For a palette [p] of exactly five colours, each with a hex of the
    form [#RRGGBB] in upper-case digits, decoding the encoding of [p] gives
    a palette: the same five hex strings with the same lock flags, each
    colour's RGB and HSL computed again from its hex, and the same rule,
    absent when it was absent. *)
Theorem url_round_trip (p : Palette)
    (Hfive : List.length p.(colors) = 5%nat)
    (Hhex : Forall (fun c => is_canonical_hex c.(hex) = true) p.(colors)) :
  decodePaletteFromUrl (encodePaletteToUrl p)
  = Some {| colors := map rederive p.(colors);
            harmonyRule := p.(harmonyRule) |}.
Proof.
  unfold encodePaletteToUrl.
  destruct p.(harmonyRule) as [rule |] eqn:Er.
  - apply decode_serialized; try assumption; try reflexivity.
    cbn. discriminate.
  - apply decode_serialized; try assumption; try reflexivity.
    cbn. discriminate.
Qed.

Lemma url_round_trip_witness :
  decodePaletteFromUrl (encodePaletteToUrl samplePalette)
  = Some {| colors := map rederive samplePalette.(colors);
            harmonyRule := samplePalette.(harmonyRule) |}.
Proof.
  apply (url_round_trip samplePalette).
  - reflexivity.
  - repeat constructor.
Defined.

End RoundTrip.

(* ------------------------------------------------------------------ *)
(** ** [rgbToHex]: canonical output, and reading it back *)

Section RgbToHex.

Lemma bytes_printed :
  forallb (fun n =>
    match toHex (of_Z (Z.of_nat n)) with
    | String a (String b EmptyString) =>
        is_upper_hex_char a && is_upper_hex_char b
        && match clamp (parseInt16 (String a (String b EmptyString))) 0 255 with
           | Fin q => Z.eqb (Qnum q) (Z.of_nat n) && Pos.eqb (Qden q) 1
           | NaN => false
           end
    | _ => false
    end) (seq 0 256) = true.
Proof. vm_compute. reflexivity. Qed.

(** A byte is printed as two upper-case digits that parse to it. *)
Lemma byte_printed (z : Z) :
  0 <= z <= 255 ->
  exists a b,
    toHex (of_Z z) = String a (String b EmptyString)
    /\ is_upper_hex_char a = true /\ is_upper_hex_char b = true
    /\ clamp (parseInt16 (String a (String b EmptyString))) 0 255 = of_Z z.
Proof.
  intros Hz. pose proof bytes_printed as Hall.
  rewrite forallb_forall in Hall.
  specialize (Hall (Z.to_nat z)).
  rewrite Z2Nat.id in Hall by lia.
  assert (Hin : In (Z.to_nat z) (seq 0 256)) by (apply in_seq; lia).
  specialize (Hall Hin).
  destruct (toHex (of_Z z)) as [| a [| b [| c t]]]; try discriminate Hall.
  exists a, b.
  destruct (clamp _ _ _) as [| q]; rewrite ?andb_false_r in Hall;
    [discriminate Hall |].
  apply andb_true_iff in Hall. destruct Hall as [Hab Hq].
  apply andb_true_iff in Hab. destruct Hab as [Ha Hb].
  apply andb_true_iff in Hq. destruct Hq as [Hn Hd].
  repeat split; try assumption.
  destruct q as [n d]. cbn [Qnum Qden] in Hn, Hd.
  apply Z.eqb_eq in Hn. apply Pos.eqb_eq in Hd. now subst.
Qed.

(** The channel that [rgbToHex] prints is a byte. *)
Lemma printed_byte (n : number) :
  finite n -> exists z, clamp (Math_round n) 0 255 = of_Z z /\ 0 <= z <= 255.
Proof.
  intros [q ->]. destruct (clamp_round_fin q 0 255) as (z & E & Hz); [lia |].
  eauto.
Qed.

Lemma rgbToHex_finite (c : RGB) :
  finite c.(r) -> finite c.(g) -> finite c.(b) ->
  is_canonical_hex (rgbToHex c) = true
  /\ hexToRgb (rgbToHex c)
     = {| r := clamp (Math_round c.(r)) 0 255;
          g := clamp (Math_round c.(g)) 0 255;
          b := clamp (Math_round c.(b)) 0 255 |}.
Proof.
  intros Hr Hg Hb. unfold rgbToHex.
  destruct (printed_byte _ Hr) as (zr & -> & Hzr).
  destruct (printed_byte _ Hg) as (zg & -> & Hzg).
  destruct (printed_byte _ Hb) as (zb & -> & Hzb).
  destruct (byte_printed zr Hzr) as (a1 & b1 & -> & Ha1 & Hb1 & E1).
  destruct (byte_printed zg Hzg) as (a2 & b2 & -> & Ha2 & Hb2 & E2).
  destruct (byte_printed zb Hzb) as (a3 & b3 & -> & Ha3 & Hb3 & E3).
  split.
  - cbn. now rewrite Ha1, Hb1, Ha2, Hb2, Ha3, Hb3.
  - rewrite (hexToRgb_hex6 _ a1 b1 a2 b2 a3 b3) by reflexivity.
    now rewrite E1, E2, E3.
Qed.

(** X1. Whatever the finite channels are (fractions, values below 0 or
    above 255), [rgbToHex] writes a hex of the form [#RRGGBB] in upper-case
    digits. *)
Theorem rgbToHex_canonical (c : RGB)
    (Hr : finite c.(r)) (Hg : finite c.(g)) (Hb : finite c.(b)) :
  is_canonical_hex (rgbToHex c) = true.
Proof. now apply rgbToHex_finite. Qed.

Lemma rgbToHex_canonical_witness :
  is_canonical_hex (rgbToHex {| r := 300; g := -10; b := Fin (5 # 2) |}) = true.
Proof.
  apply (rgbToHex_canonical {| r := 300; g := -10; b := Fin (5 # 2) |});
    eexists; reflexivity.
Defined.

(** X2. For integer channels of [[0, 255]], reading back the hex that
    [rgbToHex] wrote gives the channels again. *)
Theorem hexToRgb_rgbToHex (c : RGB) (Hc : rgb_integral c) :
  hexToRgb (rgbToHex c) = c.
Proof.
  destruct c as [cr cg cb].
  destruct Hc as ((zr & Er & Hr) & (zg & Eg & Hg) & (zb & Eb & Hb)).
  cbn [r g b] in Er, Eg, Eb. subst cr cg cb.
  destruct (rgbToHex_finite {| r := of_Z zr; g := of_Z zg; b := of_Z zb |})
    as [_ E]; try (eexists; reflexivity).
  rewrite E. cbn [r g b]. rewrite !Math_round_of_Z, !clamp_of_Z.
  repeat f_equal; lia.
Qed.

Lemma hexToRgb_rgbToHex_witness :
  hexToRgb (rgbToHex (rgbOf 18 52 86)) = rgbOf 18 52 86.
Proof.
  apply (hexToRgb_rgbToHex (rgbOf 18 52 86)).
  unfold rgb_integral, int_between; simpl.
  repeat split; eexists; (split; [reflexivity | lia]).
Defined.

End RgbToHex.

(* ------------------------------------------------------------------ *)
(** ** [hslToRgb]: the channels it returns *)

Section HslToRgb.

Lemma clamp_fin (q : Q) (lo hi : Z) : finite (clamp (Fin q) lo hi).
Proof.
  unfold clamp, Math_max, Math_min, of_Z.
  destruct (Qle_bool q (inject_Z lo));
    match goal with |- context [Qle_bool ?a ?b] => destruct (Qle_bool a b) end;
    eexists; reflexivity.
Qed.

Lemma div_const_fin (q : Q) (d : Z) :
  d <> 0 -> (Fin q / of_Z d)%num = Fin (q / inject_Z d).
Proof.
  intros Hd. apply div_fin. intros E.
  unfold Qeq in E. cbn in E. lia.
Qed.

Lemma hue2rgb_fin (p q t : Q) : finite (hue2rgb (Fin p) (Fin q) (Fin t)).
Proof.
  unfold hue2rgb.
  destruct (Fin t <? 0)%num; cbn [add sub mul lift2 of_Z];
    match goal with |- context [(?a >? ?b)%num] => destruct (a >? b)%num end;
    cbn [add sub mul lift2 of_Z];
    repeat match goal with
           | |- context [if ?c then _ else _] => destruct c
           end;
    eexists; reflexivity.
Qed.

Lemma hslToRgb_fin (qh qs ql : Q) :
  rgb_integral (hslToRgb {| h := Fin qh; s := Fin qs; l := Fin ql |}).
Proof.
  unfold hslToRgb; cbn [h s l].
  destruct (clamp_fin qh 0 360) as [ch ->].
  destruct (clamp_fin qs 0 100) as [cs ->].
  destruct (clamp_fin ql 0 100) as [cl ->].
  rewrite (div_const_fin ch 360), (div_const_fin cs 100),
    (div_const_fin cl 100) by lia.
  set (uh := (ch / inject_Z 360)%Q).
  set (us := (cs / inject_Z 100)%Q).
  set (ul := (cl / inject_Z 100)%Q).
  unfold rgb_integral.
  destruct (Fin us === 0)%num.
  - cbn [r g b mul lift2 of_Z]. repeat split; apply clamp_round_fin; lia.
  - destruct (Fin ul <? Fin (1 # 2))%num; cbn [add sub mul lift2 of_Z];
      repeat match goal with
             | |- context [hue2rgb (Fin ?p) (Fin ?q) (Fin ?t)] =>
                 let x := fresh "x" in
                 destruct (hue2rgb_fin p q t) as [x ->]
             end;
      cbn [r g b mul lift2 of_Z]; repeat split; apply clamp_round_fin; lia.
Qed.

(** X3. For every HSL value without [NaN], in range or not, the three
    channels that [hslToRgb] returns are integers of [[0, 255]]. *)
Theorem hslToRgb_channels (c : HSL)
    (Hh : finite c.(h)) (Hs : finite c.(s)) (Hl : finite c.(l)) :
  rgb_integral (hslToRgb c).
Proof.
  destruct c as [ch cs cl]. cbn [h s l] in Hh, Hs, Hl.
  destruct Hh as [qh ->], Hs as [qs ->], Hl as [ql ->].
  apply hslToRgb_fin.
Qed.

Lemma hslToRgb_channels_witness :
  rgb_integral (hslToRgb {| h := 400; s := Fin (81 # 2); l := -3 |}).
Proof.
  apply (hslToRgb_channels {| h := 400; s := Fin (81 # 2); l := -3 |});
    eexists; reflexivity.
Defined.

(** X4. A colour without saturation is a grey: when the saturation is 0
    or below, [hslToRgb] returns three equal channels, whatever the hue. *)
Theorem hslToRgb_achromatic (qh qs ql : Q) (Hs : (qs <= 0)%Q) :
  (hslToRgb {| h := Fin qh; s := Fin qs; l := Fin ql |}).(r)
  = (hslToRgb {| h := Fin qh; s := Fin qs; l := Fin ql |}).(g)
  /\ (hslToRgb {| h := Fin qh; s := Fin qs; l := Fin ql |}).(g)
     = (hslToRgb {| h := Fin qh; s := Fin qs; l := Fin ql |}).(b).
Proof.
  unfold hslToRgb; cbn [h s l].
  assert (E : clamp (Fin qs) 0 100 = of_Z 0).
  { unfold clamp, Math_max, of_Z.
    replace (Qle_bool qs (inject_Z 0)) with true
      by (symmetry; now apply Qle_bool_iff).
    reflexivity. }
  rewrite E.
  change ((of_Z 0 / 100 === 0)%num) with true. cbv iota.
  split; reflexivity.
Qed.

Lemma hslToRgb_achromatic_witness :
  (hslToRgb {| h := Fin 200; s := Fin 0; l := Fin 40 |}).(r)
  = (hslToRgb {| h := Fin 200; s := Fin 0; l := Fin 40 |}).(g)
  /\ (hslToRgb {| h := Fin 200; s := Fin 0; l := Fin 40 |}).(g)
     = (hslToRgb {| h := Fin 200; s := Fin 0; l := Fin 40 |}).(b).
Proof.
  apply (hslToRgb_achromatic 200 0 40). discriminate.
Defined.

(** X5. A grey has neither hue nor saturation: for three equal channels,
    whatever their finite value, [rgbToHsl] returns hue 0 and saturation 0. *)
Theorem rgbToHsl_achromatic (q : Q) :
  (rgbToHsl {| r := Fin q; g := Fin q; b := Fin q |}).(h) = of_Z 0
  /\ (rgbToHsl {| r := Fin q; g := Fin q; b := Fin q |}).(s) = of_Z 0.
Proof.
  unfold rgbToHsl; cbn [r g b].
  destruct (unit_channel q) as (u & -> & _ & _).
  assert (Emax : Math_max (Fin u) (Fin u) = Fin u)
    by (unfold Math_max; now destruct (Qle_bool u u)).
  assert (Emin : Math_min (Fin u) (Fin u) = Fin u)
    by (unfold Math_min; now destruct (Qle_bool u u)).
  unfold Math_max3, Math_min3. rewrite !Emax, !Emin.
  replace ((Fin u - Fin u !== 0)%num) with false.
  - cbv iota. split; reflexivity.
  - symmetry. unfold strict_neq, strict_eq. cbn [sub lift2 of_Z].
    apply negb_false_iff, Qeq_bool_iff.
    change (inject_Z 0) with 0%Q. lra.
Qed.

(** The hex that [hslToHex] writes and the channels that [hslToRgb]
    returns are the same colour. *)
Lemma hslToHex_read_back (c : HSL) :
  finite c.(h) -> finite c.(s) -> finite c.(l) ->
  is_canonical_hex (hslToHex c) = true
  /\ hexToRgb (hslToHex c) = hslToRgb c.
Proof.
  intros Hh Hs Hl. unfold hslToHex.
  assert (Hint : rgb_integral (hslToRgb c)).
  { destruct c as [ch cs cl]. cbn [h s l] in Hh, Hs, Hl.
    destruct Hh as [qh ->], Hs as [qs ->], Hl as [ql ->].
    apply hslToRgb_fin. }
  destruct (hslToRgb c) as [cr cg cb].
  destruct Hint as ((zr & Er & Hr) & (zg & Eg & Hg) & (zb & Eb & Hb)).
  cbn [r g b] in Er, Eg, Eb. subst cr cg cb.
  destruct (rgbToHex_finite {| r := of_Z zr; g := of_Z zg; b := of_Z zb |})
    as [Hc E]; try (eexists; reflexivity).
  split; [exact Hc |].
  rewrite E. cbn [r g b]. rewrite !Math_round_of_Z, !clamp_of_Z.
  repeat f_equal; lia.
Qed.

(** X6. For every HSL value without [NaN], [hslToHex] writes a hex of the
    form [#RRGGBB], and reading that hex with [hexToRgb] gives exactly the
    channels of [hslToRgb]: the two routes from HSL agree. *)
Theorem hslToHex_agrees (c : HSL)
    (Hh : finite c.(h)) (Hs : finite c.(s)) (Hl : finite c.(l)) :
  is_canonical_hex (hslToHex c) = true
  /\ hexToRgb (hslToHex c) = hslToRgb c.
Proof. now apply hslToHex_read_back. Qed.

Lemma hslToHex_agrees_witness :
  is_canonical_hex (hslToHex {| h := 210; s := 40; l := 70 |}) = true
  /\ hexToRgb (hslToHex {| h := 210; s := 40; l := 70 |})
     = hslToRgb {| h := 210; s := 40; l := 70 |}.
Proof.
  apply (hslToHex_agrees {| h := 210; s := 40; l := 70 |});
    eexists; reflexivity.
Defined.

End HslToRgb.

(* ------------------------------------------------------------------ *)
(** ** [normalizeHue] on every finite hue *)

Section NormalizeHue.

Lemma Qfloor_spec (q : Q) :
  (inject_Z (Qfloor q) <= q)%Q /\ (q < inject_Z (Qfloor q) + 1)%Q.
Proof.
  split; [apply Qfloor_le |].
  pose proof (Qlt_floor q) as H. rewrite inject_Z_plus in H. exact H.
Qed.

Lemma Qceiling_spec (q : Q) :
  (inject_Z (Qceiling q) - 1 < q)%Q /\ (q <= inject_Z (Qceiling q))%Q.
Proof.
  split; [| apply Qle_ceiling].
  pose proof (Qceiling_lt q) as H.
  unfold Z.sub in H. rewrite inject_Z_plus in H. exact H.
Qed.

(** [x % 360] is [x] less a whole number of turns, and lies strictly
    between -360 and 360. *)
Lemma rem_360_any (x : Q) :
  exists (y : Q) (k : Z),
    rem (Fin x) 360 = Fin y
    /\ (y == x - 360 * inject_Z k)%Q
    /\ (-360 < y)%Q /\ (y < 360)%Q.
Proof.
  unfold rem, of_Z. change (Qeq_bool (inject_Z 360) 0) with false. cbv iota.
  change (inject_Z 360) with 360%Q.
  exists (x - 360 * inject_Z (Qtrunc (x / 360)))%Q, (Qtrunc (x / 360)).
  split; [reflexivity |]. split; [reflexivity |].
  unfold Qtrunc.
  assert (Ex : (x == 360 * (x / 360))%Q) by (field).
  set (a := (x / 360)%Q) in *. clearbody a.
  destruct (Qle_bool 0 a) eqn:E.
  - apply Qle_bool_iff in E.
    destruct (Qfloor_spec a) as [H1 H2].
    set (f := inject_Z (Qfloor a)) in *. clearbody f. split; lra.
  - assert (Hneg : ~ (0 <= a)%Q) by (rewrite <- Qle_bool_iff; congruence).
    destruct (Qceiling_spec a) as [H1 H2].
    set (f := inject_Z (Qceiling a)) in *. clearbody f. split; lra.
Qed.

Lemma normalizeHue_any (x : Q) :
  exists (y : Q) (k : Z),
    normalizeHue (Fin x) = Fin y
    /\ (y == x - 360 * inject_Z k)%Q
    /\ (0 <= y)%Q /\ (y < 360)%Q.
Proof.
  unfold normalizeHue.
  destruct (rem_360_any x) as (y1 & k1 & -> & E1 & Hlo & Hhi).
  cbn [add lift2 of_Z]. change (inject_Z 360) with 360%Q.
  destruct (Qlt_le_dec (y1 + 360) 360) as [Hsmall | Hbig].
  - destruct (rem_360 (y1 + 360) 0) as (y2 & -> & E2).
    + lia.
    + change (inject_Z (360 * 0)) with 0%Q. lra.
    + change (inject_Z (360 * (0 + 1))) with 360%Q. lra.
    + change (inject_Z (360 * 0)) with 0%Q in E2.
      exists y2, (k1 - 1)%Z. split; [reflexivity |].
      unfold Z.sub. rewrite inject_Z_plus.
      change (inject_Z (- (1))) with (-1)%Q.
      set (t := inject_Z k1) in *. clearbody t. repeat split; lra.
  - destruct (rem_360 (y1 + 360) 1) as (y2 & -> & E2).
    + lia.
    + change (inject_Z (360 * 1)) with 360%Q. lra.
    + change (inject_Z (360 * (1 + 1))) with 720%Q. lra.
    + change (inject_Z (360 * 1)) with 360%Q in E2.
      exists y2, k1. split; [reflexivity |].
      set (t := inject_Z k1) in *. clearbody t. repeat split; lra.
Qed.


End NormalizeHue.

(* ------------------------------------------------------------------ *)
(** ** The colours that the harmony rules make *)

Section HarmonyColours.

Lemma finite_add (a b : number) : finite a -> finite b -> finite (a + b)%num.
Proof. intros [x ->] [y ->]. eexists; reflexivity. Qed.

Lemma finite_sub (a b : number) : finite a -> finite b -> finite (a - b)%num.
Proof. intros [x ->] [y ->]. eexists; reflexivity. Qed.

Lemma finite_of_Z (z : Z) : finite (of_Z z).
Proof. eexists; reflexivity. Qed.

Lemma finite_max (a b : number) : finite a -> finite b -> finite (Math_max a b).
Proof.
  intros [x ->] [y ->]. unfold Math_max.
  destruct (Qle_bool x y); eexists; reflexivity.
Qed.

Lemma finite_min (a b : number) : finite a -> finite b -> finite (Math_min a b).
Proof.
  intros [x ->] [y ->]. unfold Math_min.
  destruct (Qle_bool x y); eexists; reflexivity.
Qed.

Lemma finite_normalizeHue (a : number) : finite a -> finite (normalizeHue a).
Proof.
  intros [x ->]. destruct (normalizeHue_any x) as (y & k & -> & _).
  eexists; reflexivity.
Qed.

Lemma createColorFromHsl_sound (c : HSL) (lock : bool) :
  finite c.(h) -> finite c.(s) -> finite c.(l) ->
  sound_color (createColorFromHsl c lock).
Proof.
  intros Hh Hs Hl. unfold sound_color, createColorFromHsl; cbn [hex rgb hsl].
  destruct (hslToHex_read_back c Hh Hs Hl) as [Hc E].
  split; [exact Hc |]. split; [reflexivity |]. split; [exact E |].
  rewrite E. destruct c as [ch cs cl]. cbn [h s l] in Hh, Hs, Hl.
  destruct Hh as [qh ->], Hs as [qs ->], Hl as [ql ->].
  apply hslToRgb_fin.
Qed.

Lemma generated_sound (seed : Color) (rule : HarmonyRule) :
  finite seed.(hsl).(h) -> finite seed.(hsl).(s) -> finite seed.(hsl).(l) ->
  exists generated,
    generatePaletteByRule seed (Some rule) = Some generated
    /\ List.length generated = 5%nat
    /\ Forall (fun c => c.(locked) = false /\ sound_color c) generated.
Proof.
  intros Hh Hs Hl.
  destruct rule; cbn [generatePaletteByRule]; eexists;
    (split; [reflexivity |]); (split; [reflexivity |]);
    repeat constructor;
    apply createColorFromHsl_sound; cbn [h s l];
    repeat first [ assumption
                 | apply finite_normalizeHue
                 | apply finite_max
                 | apply finite_min
                 | apply finite_add
                 | apply finite_sub
                 | apply finite_of_Z ].
Qed.

(** X8. From a seed whose HSL has no [NaN], each of the five harmony rules
    makes exactly five colours, all unlocked, each with a hex of the form
    [#RRGGBB] and with integer channels of [[0, 255]] that are both what
    the hex spells and what [hslToRgb] gives for the colour's HSL. *)
Theorem harmony_colours_sound (seed : Color) (rule : HarmonyRule)
    (Hh : finite seed.(hsl).(h)) (Hs : finite seed.(hsl).(s))
    (Hl : finite seed.(hsl).(l)) :
  exists generated,
    generatePaletteByRule seed (Some rule) = Some generated
    /\ List.length generated = 5%nat
    /\ Forall (fun c => c.(locked) = false /\ sound_color c) generated.
Proof. now apply generated_sound. Qed.

Lemma harmony_colours_sound_witness :
  exists generated,
    generatePaletteByRule pureBlue (Some tetradic) = Some generated
    /\ List.length generated = 5%nat
    /\ Forall (fun c => c.(locked) = false /\ sound_color c) generated.
Proof.
  apply (harmony_colours_sound pureBlue tetradic); eexists; reflexivity.
Defined.

(** The hue a whole offset away from a hue of [[0, 360)]. *)
Lemma normalizeHue_offset (q : Q) (d : Z) :
  (0 <= q)%Q -> (q < 360)%Q -> 0 <= d < 360 ->
  exists y,
    normalizeHue (Fin q + of_Z d)%num = Fin y
    /\ (0 <= y)%Q /\ (y < 360)%Q
    /\ (y == q + inject_Z d \/ y == q + inject_Z d - 360)%Q.
Proof.
  intros H0 H1 Hd. cbn [add lift2 of_Z].
  assert (Hd0 : (0 <= inject_Z d)%Q)
    by (change 0%Q with (inject_Z 0); rewrite <- Zle_Qle; lia).
  assert (Hd1 : (inject_Z d < 360)%Q)
    by (change 360%Q with (inject_Z 360); rewrite <- Zlt_Qlt; lia).
  set (e := inject_Z d) in *. clearbody e.
  destruct (Qlt_le_dec (q + e) 360) as [Hs | Hb].
  - destruct (normalizeHue_in_range (q + e)) as (y & -> & E); [lra .. |].
    exists y. repeat split; lra.
  - unfold normalizeHue.
    destruct (rem_360 (q + e) 1) as (y1 & -> & E1).
    + lia.
    + change (inject_Z (360 * 1)) with 360%Q. lra.
    + change (inject_Z (360 * (1 + 1))) with 720%Q. lra.
    + change (inject_Z (360 * 1)) with 360%Q in E1.
      cbn [add lift2 of_Z]. change (inject_Z 360) with 360%Q.
      destruct (rem_360 (y1 + 360) 1) as (y2 & -> & E2).
      * lia.
      * change (inject_Z (360 * 1)) with 360%Q. lra.
      * change (inject_Z (360 * (1 + 1))) with 720%Q. lra.
      * change (inject_Z (360 * 1)) with 360%Q in E2.
        exists y2. repeat split; lra.
Qed.



End HarmonyColours.

(* ------------------------------------------------------------------ *)
(** ** Random colours and fresh palettes *)

Section RandomColours.

Import Random.

Lemma toUpperCase_app (a b : string) :
  toUpperCase (a ++ b) = toUpperCase a ++ toUpperCase b.
Proof. induction a as [| c a IH]; cbn; [reflexivity | now rewrite IH]. Qed.

(** One call of [randomHex]: the byte drawn, printed in lower case. *)
Lemma randomHex_spec (g : rng) :
  unit_draws g ->
  exists z,
    0 <= z <= 255
    /\ randomHex g
       = (padStart (toString16 (of_Z z)) 2 "0",
          {| draws := g.(draws); pos := S g.(pos) |}).
Proof.
  intros Hg. destruct (Hg g.(pos)) as [H0 H1].
  pose proof (floor_unit_scaled _ 256 ltac:(lia) H0 H1) as Hz.
  exists (Qfloor (g.(draws) g.(pos) * inject_Z 256)).
  split; [lia | reflexivity].
Qed.

Lemma unit_draws_next (g : rng) :
  unit_draws g -> unit_draws {| draws := g.(draws); pos := S g.(pos) |}.
Proof. intros Hg n. apply Hg. Qed.

(** What [generateRandomColor] returns: three bytes, as a colour. *)
Lemma generateRandomColor_spec (gen : rng) :
  unit_draws gen ->
  exists z1 z2 z3,
    (0 <= z1 <= 255 /\ 0 <= z2 <= 255 /\ 0 <= z3 <= 255)
    /\ generateRandomColor gen
       = ({| hex := rgbToHex (rgbOf z1 z2 z3);
             rgb := rgbOf z1 z2 z3;
             hsl := rgbToHsl (rgbOf z1 z2 z3);
             locked := false |},
          {| draws := gen.(draws); pos := S (S (S gen.(pos))) |}).
Proof.
  intros Hg. unfold generateRandomColor, bind.
  destruct (randomHex_spec gen Hg) as (z1 & Hz1 & ->).
  pose proof (unit_draws_next gen Hg) as Hg1.
  destruct (randomHex_spec _ Hg1) as (z2 & Hz2 & ->).
  pose proof (unit_draws_next _ Hg1) as Hg2.
  destruct (randomHex_spec _ Hg2) as (z3 & Hz3 & ->).
  cbn [draws pos]. exists z1, z2, z3. split; [auto |].
  assert (Ehex : toUpperCase ("#" ++ padStart (toString16 (of_Z z1)) 2 "0"
                               ++ padStart (toString16 (of_Z z2)) 2 "0"
                               ++ padStart (toString16 (of_Z z3)) 2 "0")
                 = rgbToHex (rgbOf z1 z2 z3)).
  { rewrite !toUpperCase_app. unfold rgbToHex, rgbOf; cbn [r g b].
    rewrite !Math_round_of_Z, !clamp_of_Z.
    rewrite !Z.max_l, !Z.min_l by lia. reflexivity. }
  rewrite Ehex.
  assert (Ergb : hexToRgb (rgbToHex (rgbOf z1 z2 z3)) = rgbOf z1 z2 z3).
  { destruct (rgbToHex_finite (rgbOf z1 z2 z3)) as [_ E];
      try (eexists; reflexivity).
    rewrite E. unfold rgbOf; cbn [r g b].
    rewrite !Math_round_of_Z, !clamp_of_Z.
    rewrite !Z.max_l, !Z.min_l by lia. reflexivity. }
  unfold ret. rewrite Ergb. reflexivity.
Qed.

End RandomColours.

(* ------------------------------------------------------------------ *)
(** ** Fresh palettes pass the validity test *)

Section FreshPalettes.

Import Random.

Lemma between_max (a : Z) (x lo hi : Q) :
  (lo <= inject_Z a)%Q -> (inject_Z a <= hi)%Q -> (x <= hi)%Q ->
  num_between lo hi (Math_max (of_Z a) (Fin x)).
Proof.
  intros Ha0 Ha1 Hx. unfold Math_max, of_Z.
  destruct (Qle_bool (inject_Z a) x) eqn:E; cbn.
  - apply Qle_bool_iff in E. split; [eapply Qle_trans; eassumption | exact Hx].
  - split; assumption.
Qed.

Lemma between_min (a : Z) (x lo hi : Q) :
  (lo <= inject_Z a)%Q -> (inject_Z a <= hi)%Q -> (lo <= x)%Q ->
  num_between lo hi (Math_min (of_Z a) (Fin x)).
Proof.
  intros Ha0 Ha1 Hx. unfold Math_min, of_Z.
  destruct (Qle_bool (inject_Z a) x) eqn:E; cbn.
  - split; assumption.
  - assert (Hlt : ~ (inject_Z a <= x)%Q) by (rewrite <- Qle_bool_iff; congruence).
    split; [exact Hx |]. apply Qle_trans with (inject_Z a); [| exact Ha1].
    apply Qlt_le_weak. now apply Qnot_le_lt.
Qed.

Lemma between_normalizeHue (q : Q) (d : Z) :
  num_between 0 360 (normalizeHue (Fin q + of_Z d)%num).
Proof.
  cbn [add lift2 of_Z].
  destruct (normalizeHue_any (q + inject_Z d)) as (y & k & -> & _ & H0 & H1).
  cbn. split; [exact H0 | now apply Qlt_le_weak].
Qed.

(** The colours that a rule makes from a seed with an HSL in range have an
    HSL in range. *)
Lemma generated_in_range (seed : Color) (rule : HarmonyRule) (qh qs ql : Q) :
  seed.(hsl) = {| h := Fin qh; s := Fin qs; l := Fin ql |} ->
  (0 <= qh)%Q -> (qh <= 360)%Q -> (0 <= qs)%Q -> (qs <= 100)%Q ->
  (0 <= ql)%Q -> (ql <= 100)%Q ->
  forall generated,
    generatePaletteByRule seed (Some rule) = Some generated ->
    Forall (fun c => hsl_in_range c.(hsl)) generated.
Proof.
  intros Eh Hh0 Hh1 Hs0 Hs1 Hl0 Hl1 generated Egen.
  destruct rule; cbn [generatePaletteByRule] in Egen; injection Egen as <-;
    unfold generateAnalogousPalette, generateComplementaryPalette,
      generateTriadicPalette, generateTetradicPalette,
      generateMonochromaticPalette;
    rewrite Eh; cbn [map h s l];
    repeat constructor; cbn [hsl createColorFromHsl h s l];
    try apply between_normalizeHue;
    try (cbn [sub add lift2 of_Z];
         first [ apply between_max | apply between_min ]);
    cbv [num_between inject_Z]; try split; lra.
Qed.

Lemma freshPalette_valid (rule : HarmonyRule) (gen : rng) :
  unit_draws gen ->
  exists p',
    fst (freshPalette (Some rule) gen) = Some p'
    /\ List.length p'.(colors) = 5%nat
    /\ p'.(harmonyRule) = Some rule
    /\ Forall (fun c => c.(locked) = false /\ sound_color c
                        /\ hsl_in_range c.(hsl)) p'.(colors).
Proof.
  intros Hg. unfold freshPalette, bind.
  destruct (generateRandomColor_spec gen Hg) as (z1 & z2 & z3 & _ & ->).
  set (seed := {| hex := rgbToHex (rgbOf z1 z2 z3); rgb := rgbOf z1 z2 z3;
                  hsl := rgbToHsl (rgbOf z1 z2 z3); locked := false |}).
  destruct (rgbToHsl_fin (inject_Z z1) (inject_Z z2) (inject_Z z3))
    as ((zh & Eh & Hh) & (zs & Es & Hs) & (zl & El & Hl)).
  assert (Ehsl : seed.(hsl) = {| h := of_Z zh; s := of_Z zs; l := of_Z zl |}).
  { cbn [seed hsl]. unfold rgbOf, of_Z at 1 2 3.
    destruct (rgbToHsl _) as [hh ss ll]. cbn [h s l] in Eh, Es, El.
    now subst. }
  destruct (generated_sound seed rule) as (generated & Egen & Hlen & Hsound);
    try (rewrite Ehsl; cbn [h s l]; apply finite_of_Z).
  assert (Hrange : Forall (fun c => hsl_in_range c.(hsl)) generated).
  { apply (generated_in_range seed rule (inject_Z zh) (inject_Z zs)
             (inject_Z zl)); try exact Ehsl; try exact Egen;
      change 0%Q with (inject_Z 0); change 360%Q with (inject_Z 360);
      change 100%Q with (inject_Z 100); rewrite <- Zle_Qle; lia. }
  rewrite Egen. cbn. eexists. split; [reflexivity |].
  split; [exact Hlen |]. split; [reflexivity |].
  rewrite Forall_forall in *. intros c Hc.
  destruct (Hsound c Hc) as [Hu Hsd].
  split; [exact Hu |]. split; [exact Hsd |]. now apply Hrange.
Qed.

End FreshPalettes.

(* ------------------------------------------------------------------ *)
(** ** Regeneration from any palette *)

Section RegenerationAny.

Import Random.

Variable current : list Color.
Variable lockedColors : list Color.
Variable generatedColors : list Color.

Lemma lockedAt_app_old (fc : list Color) (x : Color) (j : nat) :
  (j < List.length fc)%nat -> lockedAt (fc ++ [x]) j = lockedAt fc j.
Proof. intros H. unfold lockedAt. now rewrite nth_error_app1. Qed.

Lemma lockedAt_app_new (fc : list Color) (x : Color) :
  lockedAt (fc ++ [x]) (List.length fc) = x.(locked).
Proof.
  unfold lockedAt. rewrite nth_error_app2 by lia.
  now rewrite Nat.sub_diag.
Qed.

Lemma merged_flags_snoc (i : nat) (fc : list Color) (x : Color) :
  merged_flags current i fc -> x.(locked) = lockedAt current i ->
  merged_flags current (S i) (fc ++ [x]).
Proof.
  intros [Hlen Hf] Hx. split.
  - rewrite length_app; cbn. lia.
  - intros j Hj. destruct (Nat.eq_dec j i) as [-> | Hne].
    + rewrite <- Hlen at 1. now rewrite lockedAt_app_new.
    + rewrite lockedAt_app_old by lia. apply Hf. lia.
Qed.

(** The inner loop takes the first generated colour, from the index on,
    whose hex is the hex of no locked colour, and unlocks it. *)
Lemma takeGenerated_spec (rest : list Color) (generatedIndex : nat) :
  match takeGenerated lockedColors rest generatedIndex with
  | (Some c, reached) =>
      exists k genColor,
        nth_error rest k = Some genColor
        /\ c = unlock genColor
        /\ isAlreadyLocked lockedColors genColor = false
        /\ Forall (fun earlier => isAlreadyLocked lockedColors earlier = true)
                  (firstn k rest)
        /\ reached = (generatedIndex + k + 1)%nat
  | (None, reached) =>
      Forall (fun earlier => isAlreadyLocked lockedColors earlier = true) rest
      /\ reached = (generatedIndex + List.length rest)%nat
  end.
Proof.
  revert generatedIndex.
  induction rest as [| genColor rest IH]; intros generatedIndex;
    cbn [takeGenerated].
  - split; [constructor | cbn; lia].
  - destruct (isAlreadyLocked lockedColors genColor) eqn:E.
    + specialize (IH (S generatedIndex)).
      destruct (takeGenerated lockedColors rest (S generatedIndex))
        as [[c |] reached].
      * destruct IH as (k & g0 & Hk & Hc & Hfree & Hearlier & Hreached).
        exists (S k), g0. cbn [nth_error firstn].
        repeat split; try assumption; [now constructor | lia].
      * destruct IH as [Hall Hreached]. split; [now constructor |].
        cbn [List.length]. lia.
    + exists 0%nat, genColor. cbn [nth_error firstn].
      repeat split; try assumption; [constructor | lia].
Qed.

Lemma generateRandomColor_unlocked (gen : rng) :
  (fst (generateRandomColor gen)).(locked) = false.
Proof.
  unfold generateRandomColor, bind.
  destruct (randomHex gen) as [h1 g1].
  destruct (randomHex g1) as [h2 g2].
  destruct (randomHex g2) as [h3 g3]. reflexivity.
Qed.

Lemma mergeStep_flags (i : nat) (st : list Color * nat) (gen : rng) :
  merged_flags current i (fst st) ->
  merged_flags current (S i)
    (fst (fst (mergeStep current lockedColors generatedColors st i gen))).
Proof.
  destruct st as [finalColors generatedIndex]; cbn [fst]. intros Hm.
  unfold mergeStep.
  pose proof (takeGenerated_spec (skipn generatedIndex generatedColors)
                generatedIndex) as Hspec.
  pose proof (generateRandomColor_unlocked gen) as Hu.
  destruct Hm as [Hlen Hf].
  assert (Hpick : forall g0, (List.length (finalColors ++ [unlock g0]) =? i)%nat
                             = false)
    by (intros g0; apply Nat.eqb_neq; rewrite length_app; cbn; lia).
  destruct (nth_error current i) as [currentColor |] eqn:Ec;
    [destruct (locked currentColor) eqn:El |].
  - cbn [ret fst]. apply merged_flags_snoc; [now split |].
    unfold lockedAt. now rewrite Ec.
  - destruct (takeGenerated _ _ _) as [[picked |] gi].
    + destruct Hspec as (k & g0 & _ & -> & _). rewrite Hpick.
      cbn [ret fst]. apply merged_flags_snoc; [now split |].
      unfold lockedAt. now rewrite Ec, El.
    + rewrite Hlen, Nat.eqb_refl. unfold bind.
      destruct (generateRandomColor gen) as [c g']. cbn [fst] in Hu |- *.
      cbn [ret fst]. apply merged_flags_snoc; [now split |].
      unfold lockedAt. now rewrite Ec, El.
  - destruct (takeGenerated _ _ _) as [[picked |] gi].
    + destruct Hspec as (k & g0 & _ & -> & _). rewrite Hpick.
      cbn [ret fst]. apply merged_flags_snoc; [now split |].
      unfold lockedAt. now rewrite Ec.
    + rewrite Hlen, Nat.eqb_refl. unfold bind.
      destruct (generateRandomColor gen) as [c g']. cbn [fst] in Hu |- *.
      cbn [ret fst]. apply merged_flags_snoc; [now split |].
      unfold lockedAt. now rewrite Ec.
Qed.

Lemma mergeLoop_flags (n i : nat) (st : list Color * nat) (gen : rng) :
  merged_flags current i (fst st) ->
  merged_flags current (i + n)
    (fst (fst (mergeLoop current lockedColors generatedColors (seq i n) st gen))).
Proof.
  revert i st gen. induction n as [| n IH]; intros i st gen Hm.
  - cbn. now rewrite Nat.add_0_r.
  - cbn [seq mergeLoop]. unfold bind.
    pose proof (mergeStep_flags i st gen Hm) as Hs.
    destruct (mergeStep current lockedColors generatedColors st i gen)
      as [st' g'].
    cbn [fst] in Hs. rewrite <- Nat.add_succ_comm. now apply IH.
Qed.

End RegenerationAny.

Section RegenerationGeneral.

Import Random.

Lemma selectRandomHarmonyRule_spec (gen : rng) :
  unit_draws gen ->
  exists rule,
    selectRandomHarmonyRule gen
    = (Some rule, {| draws := gen.(draws); pos := S gen.(pos) |}).
Proof.
  intros Hg. destruct (selectRandomHarmonyRule_defined gen Hg) as [rule E].
  exists rule. rewrite <- E. reflexivity.
Qed.

Lemma unlocked_lockedAt (cs : list Color) (i : nat) :
  Forall (fun c => c.(locked) = false) cs -> lockedAt cs i = false.
Proof.
  intros H. unfold lockedAt.
  destruct (nth_error cs i) as [c |] eqn:E; [| reflexivity].
  rewrite Forall_forall in H. apply H. now apply nth_error_In with i.
Qed.

Lemma filter_locked_nil (cs : list Color) :
  filter locked cs = [] -> Forall (fun c => c.(locked) = false) cs.
Proof.
  intros H. apply Forall_forall. intros c Hc.
  destruct (locked c) eqn:E; [| reflexivity].
  assert (Hin : In c (filter locked cs)) by (apply filter_In; auto).
  rewrite H in Hin. destruct Hin.
Qed.

(** What [generateRandomPalette] returns, whatever it is given. *)
Lemma regeneration_general (current : option Palette) (gen : rng) :
  unit_draws gen ->
  exists rule p',
    fst (generateRandomPalette current gen) = Some p'
    /\ p'.(harmonyRule) = Some rule
    /\ (forall i, (i < 5)%nat ->
                  lockedAt p'.(colors) i = lockedAt (colorsOf current) i)
    /\ (forall i c, (i < 5)%nat -> nth_error (colorsOf current) i = Some c ->
                    c.(locked) = true -> nth_error p'.(colors) i = Some c)
    /\ ((List.length (colorsOf current) <= 5)%nat ->
        List.length p'.(colors) = 5%nat)
    /\ (Forall (fun c => c.(locked) = false) (colorsOf current) ->
        List.length p'.(colors) = 5%nat
        /\ Forall (fun c => c.(locked) = false /\ sound_color c
                            /\ hsl_in_range c.(hsl)) p'.(colors)).
Proof.
  intros Hg.
  destruct (selectRandomHarmonyRule_spec gen Hg) as [rule Erule].
  pose proof (unit_draws_next gen Hg) as Hg1.
  destruct (freshPalette_valid rule _ Hg1) as (fresh & Efresh & Hlen & Hrule & Hvalid).
  assert (Hfresh :
    Forall (fun c => c.(locked) = false) (colorsOf current) ->
    fst (freshPalette (Some rule) {| draws := gen.(draws); pos := S gen.(pos) |})
    = fst (generateRandomPalette current gen) ->
    exists rule p',
      fst (generateRandomPalette current gen) = Some p'
      /\ p'.(harmonyRule) = Some rule
      /\ (forall i, (i < 5)%nat ->
                    lockedAt p'.(colors) i = lockedAt (colorsOf current) i)
      /\ (forall i c, (i < 5)%nat -> nth_error (colorsOf current) i = Some c ->
                      c.(locked) = true -> nth_error p'.(colors) i = Some c)
      /\ ((List.length (colorsOf current) <= 5)%nat ->
          List.length p'.(colors) = 5%nat)
      /\ (Forall (fun c => c.(locked) = false) (colorsOf current) ->
          List.length p'.(colors) = 5%nat
          /\ Forall (fun c => c.(locked) = false /\ sound_color c
                              /\ hsl_in_range c.(hsl)) p'.(colors))).
  { intros Hun <-. exists rule, fresh. split; [exact Efresh |].
    split; [exact Hrule |]. split; [| split; [| split]].
    - intros i _. rewrite (unlocked_lockedAt _ i Hun).
      apply unlocked_lockedAt. eapply Forall_impl; [| exact Hvalid].
      now intros c [Hc _].
    - intros i c _ Hc Hl. exfalso. rewrite Forall_forall in Hun.
      rewrite (Hun c) in Hl; [discriminate Hl |]. now apply nth_error_In with i.
    - intros _. exact Hlen.
    - intros _. split; assumption. }
  unfold generateRandomPalette, bind in *. rewrite Erule in *.
  destruct current as [p |]; cbn [colorsOf] in *.
  2: { apply Hfresh; [constructor | reflexivity]. }
  destruct (List.length (colors p) =? 0)%nat eqn:E0.
  { apply Hfresh; [| reflexivity].
    apply Nat.eqb_eq in E0. destruct (colors p); [constructor | discriminate E0]. }
  destruct (filter locked (colors p)) as [| baseColor others] eqn:Ef.
  { cbn [List.length Nat.eqb] in *. apply Hfresh; [| reflexivity].
    now apply filter_locked_nil. }
  cbn [List.length Nat.eqb] in *. clear Hfresh.
  assert (Hsome : ~ Forall (fun c => c.(locked) = false) (colors p)).
  { intros Hun. rewrite Forall_forall in Hun.
    assert (Hin : In baseColor (filter locked (colors p)))
      by (rewrite Ef; now left).
    apply filter_In in Hin. destruct Hin as [Hin Hl].
    rewrite (Hun _ Hin) in Hl. discriminate Hl. }
  destruct (5 <=? S (List.length others))%nat eqn:Eall.
  - exists rule. eexists. cbn [ret fst colors harmonyRule].
    split; [reflexivity |]. split; [reflexivity |].
    repeat split; auto; try contradiction.
    intros Hle5. cbn [colors]. apply Nat.leb_le in Eall.
    pose proof (filter_length_le locked (colors p)) as Hle.
    rewrite Ef in Hle. cbn [List.length] in Hle. lia.
  - destruct (generatePaletteByRule_five baseColor rule)
      as (generated & -> & _).
    set (g1 := {| draws := gen.(draws); pos := S gen.(pos) |}) in *.
    pose proof (mergeLoop_merged p.(colors) (baseColor :: others) generated
                  5 0 ([], O) g1) as Hm.
    pose proof (mergeLoop_flags p.(colors) (baseColor :: others) generated
                  5 0 ([], O) g1) as Hfl.
    destruct (mergeLoop _ _ _ (seq 0 5) _ g1) as [[finalColors gi] g2].
    cbn [fst] in Hm, Hfl |- *.
    assert (H0 : merged p.(colors) 0 []) by (split; [reflexivity | lia]).
    assert (H0' : merged_flags p.(colors) 0 [])
      by (split; [reflexivity | lia]).
    specialize (Hm H0). specialize (Hfl H0'). cbn [Nat.add] in Hm, Hfl.
    destruct Hm as [Hlen5 Hkeep]. destruct Hfl as [_ Hflags].
    rewrite (padToFive_full finalColors g2 Hlen5). unfold ret. cbn [fst].
    rewrite firstn_all2 by lia.
    exists rule. eexists. split; [reflexivity |]. cbn [colors harmonyRule].
    split; [reflexivity |].
    repeat split; auto; try contradiction.
Qed.

(** X10. Given no palette, or a palette of at most five colours,
    [generateRandomPalette] (with draws in [[0, 1)]) returns a palette of
    exactly five colours with a rule recorded, and every locked colour of
    the input is, unchanged, at its index. *)
Theorem regeneration_from_any (current : option Palette) (gen : rng)
    (Hg : unit_draws gen)
    (Hlen : (List.length (colorsOf current) <= 5)%nat) :
  exists p',
    fst (generateRandomPalette current gen) = Some p'
    /\ List.length p'.(colors) = 5%nat
    /\ p'.(harmonyRule) <> None
    /\ forall i c, nth_error (colorsOf current) i = Some c ->
                   c.(locked) = true -> nth_error p'.(colors) i = Some c.
Proof.
  destruct (regeneration_general current gen Hg)
    as (rule & p' & E & Hrule & _ & Hkeep & Hfive & _).
  exists p'. split; [exact E |]. split; [now apply Hfive |].
  split; [congruence |].
  intros i c Hc Hl. apply Hkeep; [| assumption..].
  assert (Hi : (i < List.length (colorsOf current))%nat)
    by (apply nth_error_Some; congruence).
  lia.
Qed.

Lemma regeneration_from_any_witness :
  exists p',
    fst (generateRandomPalette
           (Some {| colors := [pureGreen; pureRed]; harmonyRule := None |})
           thirds) = Some p'
    /\ List.length p'.(colors) = 5%nat
    /\ p'.(harmonyRule) <> None
    /\ forall i c,
         nth_error
           (colorsOf (Some {| colors := [pureGreen; pureRed];
                              harmonyRule := None |})) i = Some c ->
         c.(locked) = true -> nth_error p'.(colors) i = Some c.
Proof.
  apply (regeneration_from_any
           (Some {| colors := [pureGreen; pureRed]; harmonyRule := None |})
           thirds).
  - intros n. split; reflexivity || discriminate.
  - cbn. lia.
Defined.

(** X11. Regeneration never changes which of the five slots are locked:
    in the palette that [generateRandomPalette] returns, a slot holds a
    locked colour exactly when it did in the palette given (no slot, when
    none is given). *)
Theorem regeneration_keeps_flags (current : option Palette) (gen : rng)
    (Hg : unit_draws gen) :
  exists p',
    fst (generateRandomPalette current gen) = Some p'
    /\ forall i, (i < 5)%nat ->
                 lockedAt p'.(colors) i = lockedAt (colorsOf current) i.
Proof.
  destruct (regeneration_general current gen Hg)
    as (rule & p' & E & _ & Hflags & _).
  exists p'. split; assumption.
Qed.

Lemma regeneration_keeps_flags_witness :
  exists p',
    fst (generateRandomPalette (Some samplePalette) thirds) = Some p'
    /\ forall i, (i < 5)%nat ->
                 lockedAt p'.(colors) i
                 = lockedAt (colorsOf (Some samplePalette)) i.
Proof.
  apply (regeneration_keeps_flags (Some samplePalette) thirds).
  intros n. split; reflexivity || discriminate.
Defined.

(** X12. When no colour is locked (or no palette is given), the palette
    that [generateRandomPalette] returns passes the validity test of the
    repository: five colours, all unlocked, each with a hex of the form
    [#RRGGBB], integer channels of [[0, 255]] that the hex spells, and an
    HSL within its ranges; and a rule is recorded. *)
Theorem fresh_palette_valid (current : option Palette) (gen : rng)
    (Hg : unit_draws gen)
    (Hunlocked : Forall (fun c => c.(locked) = false) (colorsOf current)) :
  exists p',
    fst (generateRandomPalette current gen) = Some p'
    /\ List.length p'.(colors) = 5%nat
    /\ p'.(harmonyRule) <> None
    /\ Forall (fun c => c.(locked) = false /\ sound_color c
                        /\ hsl_in_range c.(hsl)) p'.(colors).
Proof.
  destruct (regeneration_general current gen Hg)
    as (rule & p' & E & Hrule & _ & _ & _ & Hfresh).
  destruct (Hfresh Hunlocked) as [Hlen Hvalid].
  exists p'. repeat split; try assumption. congruence.
Qed.

Lemma fresh_palette_valid_witness :
  exists p',
    fst (generateRandomPalette None thirds) = Some p'
    /\ List.length p'.(colors) = 5%nat
    /\ p'.(harmonyRule) <> None
    /\ Forall (fun c => c.(locked) = false /\ sound_color c
                        /\ hsl_in_range c.(hsl)) p'.(colors).
Proof.
  apply (fresh_palette_valid None thirds).
  - intros n. split; reflexivity || discriminate.
  - constructor.
Defined.

(** X13. The colour that the inner loop of the merge takes is the first
    generated colour, from the current index on, whose hex is the hex of no
    locked colour: it is unlocked, the generated colours skipped before it
    all collide with a locked colour, and the index moves just past it. *)
Theorem inner_loop_avoids_locked (lockedColors rest : list Color)
    (generatedIndex reached : nat) (c : Color)
    (Htake : takeGenerated lockedColors rest generatedIndex
             = (Some c, reached)) :
  c.(locked) = false
  /\ (forall lockedColor, In lockedColor lockedColors ->
                          lockedColor.(hex) <> c.(hex))
  /\ exists k genColor,
       nth_error rest k = Some genColor
       /\ c = unlock genColor
       /\ Forall (fun earlier =>
                    exists lockedColor,
                      In lockedColor lockedColors
                      /\ lockedColor.(hex) = earlier.(hex))
                 (firstn k rest)
       /\ reached = (generatedIndex + k + 1)%nat.
Proof.
  pose proof (takeGenerated_spec lockedColors rest generatedIndex) as Hspec.
  rewrite Htake in Hspec.
  destruct Hspec as (k & genColor & Hk & -> & Hfree & Hearlier & Hreached).
  split; [reflexivity |]. split.
  - intros lockedColor Hin Heq. cbn [unlock hex] in Heq.
    unfold isAlreadyLocked in Hfree.
    assert (Hex : existsb (fun lc => String.eqb lc.(hex) genColor.(hex))
                          lockedColors = true).
    { apply existsb_exists. exists lockedColor.
      split; [exact Hin | now apply String.eqb_eq]. }
    congruence.
  - exists k, genColor. repeat split; try assumption.
    eapply Forall_impl; [| exact Hearlier].
    intros earlier He. unfold isAlreadyLocked in He.
    apply existsb_exists in He. destruct He as (lc & Hin & Heq).
    exists lc. split; [exact Hin | now apply String.eqb_eq].
Qed.

Lemma inner_loop_avoids_locked_witness :
  exists c reached,
    takeGenerated [pureRed] (skipn 2 (generateAnalogousPalette pureRed)) 2
    = (Some c, reached)
    /\ c.(locked) = false
    /\ (forall lockedColor, In lockedColor [pureRed] ->
                            lockedColor.(hex) <> c.(hex))
    /\ reached = 4%nat.
Proof.
  eexists. eexists. split; [vm_compute; reflexivity |].
  match goal with
  | |- locked ?c = false /\ _ =>
      destruct (inner_loop_avoids_locked [pureRed]
                  (skipn 2 (generateAnalogousPalette pureRed)) 2 4 c)
        as (Hu & Hfree & _)
  end.
  - vm_compute. reflexivity.
  - split; [exact Hu |]. split; [exact Hfree | reflexivity].
Defined.

End RegenerationGeneral.

(* ------------------------------------------------------------------ *)
(** ** The palette state: toggling locks and editing colours *)

Section PaletteState.

Import Random UsePalette.

Lemma updateAt_nth {A : Type} (f : A -> A) (i : nat) (xs : list A) (j : nat) :
  nth_error (updateAt f i xs) j
  = option_map (fun x => if (j =? i)%nat then f x else x) (nth_error xs j).
Proof.
  revert i j. induction xs as [| x xs IH]; intros i j.
  - destruct i, j; reflexivity.
  - destruct i as [| i], j as [| j]; cbn; try reflexivity.
    + now destruct (nth_error xs j).
    + apply IH.
Qed.

Lemma updateAt_length {A : Type} (f : A -> A) (i : nat) (xs : list A) :
  List.length (updateAt f i xs) = List.length xs.
Proof.
  revert i. induction xs as [| x xs IH]; intros [| i]; cbn; auto.
Qed.

Lemma updateAt_twice {A : Type} (f : A -> A) (i : nat) (xs : list A) :
  (forall x, f (f x) = x) -> updateAt f i (updateAt f i xs) = xs.
Proof.
  intros Hf. revert i. induction xs as [| x xs IH]; intros [| i]; cbn;
    try reflexivity.
  - now rewrite Hf.
  - now rewrite IH.
Qed.

Lemma flipLock_twice (c : Color) : flipLock (flipLock c) = c.
Proof. destruct c as [hx rg hs lk]. unfold flipLock; cbn. now rewrite negb_involutive. Qed.

(** X14. Toggling the lock of the same slot twice gives the palette back,
    whatever the index is. *)
Theorem toggleLock_twice (index : Z) (p : Palette) :
  toggleLock index (toggleLock index p) = p.
Proof.
  unfold toggleLock.
  destruct ((index <? 0) || (Z.of_nat (List.length (colors p)) <=? index))
    eqn:E.
  - now rewrite E.
  - cbn [colors harmonyRule]. rewrite updateAt_length, E.
    rewrite updateAt_twice by apply flipLock_twice. now destruct p.
Qed.

Lemma toggleLock_spec (index : Z) (p : Palette) :
  (toggleLock index p).(harmonyRule) = p.(harmonyRule)
  /\ List.length (toggleLock index p).(colors) = List.length p.(colors)
  /\ forall j,
       nth_error (toggleLock index p).(colors) j
       = option_map (fun c => if Z.of_nat j =? index then flipLock c else c)
                    (nth_error p.(colors) j).
Proof.
  unfold toggleLock.
  destruct ((index <? 0) || (Z.of_nat (List.length (colors p)) <=? index))
    eqn:E.
  - repeat split. intros j.
    destruct (nth_error (colors p) j) as [c |] eqn:Ej; [| reflexivity].
    cbn [option_map].
    assert (Hj : (j < List.length (colors p))%nat)
      by (apply nth_error_Some; congruence).
    destruct (Z.eqb_spec (Z.of_nat j) index) as [<- | _]; [| reflexivity].
    apply orb_true_iff in E. destruct E as [E | E]; lia.
  - cbn [colors harmonyRule]. split; [reflexivity |].
    split; [apply updateAt_length |].
    intros j. rewrite updateAt_nth.
    apply orb_false_iff in E. destruct E as [E0 E1].
    destruct (nth_error (colors p) j) as [c |]; [| reflexivity].
    cbn [option_map].
    destruct (Nat.eqb_spec j (Z.to_nat index)) as [-> | Hne].
    + rewrite Z2Nat.id by lia. now rewrite Z.eqb_refl.
    + destruct (Z.eqb_spec (Z.of_nat j) index) as [<- | _]; [| reflexivity].
      rewrite Nat2Z.id in Hne. congruence.
Qed.

(** X15. [toggleLock] changes the lock flag of the colour at the index and
    nothing else: the other colours, every hex, RGB and HSL, the number of
    colours and the rule stay; an index that is negative or beyond the last
    colour changes nothing at all. *)
Theorem toggleLock_effect (index : Z) (p : Palette) :
  (toggleLock index p).(harmonyRule) = p.(harmonyRule)
  /\ List.length (toggleLock index p).(colors) = List.length p.(colors)
  /\ forall j,
       nth_error (toggleLock index p).(colors) j
       = option_map (fun c => if Z.of_nat j =? index then flipLock c else c)
                    (nth_error p.(colors) j).
Proof. apply toggleLock_spec. Qed.

(** X16. Locking a colour protects it: after [toggleLock] on an unlocked
    colour at one of the five slots, [generateRandomPalette] (with draws in
    [[0, 1)]) returns a palette with that colour, now locked, at the same
    slot. *)
Theorem lock_then_regenerate (index : Z) (p : Palette) (c : Color)
    (gen : rng) (Hg : unit_draws gen)
    (Hindex : 0 <= index < 5)
    (Hc : nth_error p.(colors) (Z.to_nat index) = Some c)
    (Hfree : c.(locked) = false) :
  exists p',
    fst (generateRandomPalette (Some (toggleLock index p)) gen) = Some p'
    /\ nth_error p'.(colors) (Z.to_nat index) = Some (flipLock c)
    /\ (flipLock c).(hex) = c.(hex)
    /\ (flipLock c).(locked) = true.
Proof.
  destruct (regeneration_general (Some (toggleLock index p)) gen Hg)
    as (rule & p' & E & _ & _ & Hkeep & _).
  exists p'. split; [exact E |].
  assert (Ht : nth_error (toggleLock index p).(colors) (Z.to_nat index)
               = Some (flipLock c)).
  { destruct (toggleLock_spec index p) as (_ & _ & Hnth).
    rewrite Hnth, Hc. cbn [option_map].
    rewrite Z2Nat.id by lia. now rewrite Z.eqb_refl. }
  split; [| split; [reflexivity | cbn; now rewrite Hfree]].
  apply Hkeep; [lia | exact Ht | cbn; now rewrite Hfree].
Qed.

Lemma lock_then_regenerate_witness :
  exists p',
    fst (generateRandomPalette (Some (toggleLock 2 samplePalette)) thirds)
    = Some p'
    /\ nth_error p'.(colors) (Z.to_nat 2) = Some (flipLock pureGreen)
    /\ (flipLock pureGreen).(hex) = pureGreen.(hex)
    /\ (flipLock pureGreen).(locked) = true.
Proof.
  apply (lock_then_regenerate 2 samplePalette pureGreen thirds).
  - intros n. split; reflexivity || discriminate.
  - lia.
  - reflexivity.
  - reflexivity.
Defined.

Lemma updateColor_nth (index : Z) (color : Color) (p : Palette) :
  0 <= index < Z.of_nat (List.length p.(colors)) ->
  nth_error (updateColor index color p).(colors) (Z.to_nat index) = Some color.
Proof.
  intros Hi. unfold updateColor.
  replace ((index <? 0) || (Z.of_nat (List.length (colors p)) <=? index))
    with false
    by (symmetry; apply orb_false_iff; split; [apply Z.ltb_ge | apply Z.leb_gt]; lia).
  cbn [colors]. rewrite updateAt_nth, Nat.eqb_refl.
  destruct (nth_error (colors p) (Z.to_nat index)) eqn:E; [reflexivity |].
  apply nth_error_None in E. lia.
Qed.

(** X17. The colour that a slider change hands on is locked and agrees
    with itself: when the HSL state and the new value have no [NaN], its
    hex has the form [#RRGGBB] and its channels are integers of [[0, 255]]
    that are both what the hex spells and what [hslToRgb] gives for its
    HSL. *)
Theorem slider_colour_sound (state : HSL) (property : ColorSwatch.HslKey)
    (value : number)
    (Hh : finite state.(h)) (Hs : finite state.(s)) (Hl : finite state.(l))
    (Hv : finite value) :
  (ColorSwatch.handleSliderChange state property value).(locked) = true
  /\ sound_color (ColorSwatch.handleSliderChange state property value).
Proof.
  split; [reflexivity |].
  unfold ColorSwatch.handleSliderChange, sound_color; cbn [hex rgb hsl].
  set (newHsl := ColorSwatch.setHslProperty state property value).
  assert (Hfin : finite newHsl.(h) /\ finite newHsl.(s) /\ finite newHsl.(l))
    by (destruct property; cbn; auto).
  destruct Hfin as (Fh & Fs & Fl).
  destruct (hslToHex_read_back newHsl Fh Fs Fl) as [Hc E].
  split; [exact Hc |]. split; [now symmetry |]. split; [reflexivity |].
  destruct newHsl as [nh ns nl]. cbn [h s l] in Fh, Fs, Fl.
  destruct Fh as [qh ->], Fs as [qs ->], Fl as [ql ->].
  apply hslToRgb_fin.
Qed.

Lemma slider_colour_sound_witness :
  (ColorSwatch.handleSliderChange {| h := 0; s := 100; l := 50 |}
     ColorSwatch.key_h 200).(locked) = true
  /\ sound_color (ColorSwatch.handleSliderChange {| h := 0; s := 100; l := 50 |}
                    ColorSwatch.key_h 200).
Proof.
  apply (slider_colour_sound {| h := 0; s := 100; l := 50 |}
           ColorSwatch.key_h 200); eexists; reflexivity.
Defined.

(** X18. An edit survives regeneration: once [updateColor] has put the
    colour of a slider change at one of the five slots of a palette,
    [generateRandomPalette] (with draws in [[0, 1)]) returns a palette with
    that very colour at the same slot. *)
Theorem edit_then_regenerate (index : Z) (p : Palette) (state : HSL)
    (property : ColorSwatch.HslKey) (value : number) (gen : rng)
    (Hg : unit_draws gen)
    (Hindex : 0 <= index < 5)
    (Hslot : index < Z.of_nat (List.length p.(colors))) :
  exists p',
    fst (generateRandomPalette
           (Some (updateColor index
                    (ColorSwatch.handleSliderChange state property value) p))
           gen) = Some p'
    /\ nth_error p'.(colors) (Z.to_nat index)
       = Some (ColorSwatch.handleSliderChange state property value).
Proof.
  set (edited := ColorSwatch.handleSliderChange state property value).
  destruct (regeneration_general (Some (updateColor index edited p)) gen Hg)
    as (rule & p' & E & _ & _ & Hkeep & _).
  exists p'. split; [exact E |].
  apply Hkeep; [lia | | reflexivity].
  cbn [colorsOf]. apply updateColor_nth. lia.
Qed.

Lemma edit_then_regenerate_witness :
  exists p',
    fst (generateRandomPalette
           (Some (updateColor 0
                    (ColorSwatch.handleSliderChange
                       {| h := 120; s := 100; l := 50 |} ColorSwatch.key_l 30)
                    samplePalette))
           thirds) = Some p'
    /\ nth_error p'.(colors) (Z.to_nat 0)
       = Some (ColorSwatch.handleSliderChange
                 {| h := 120; s := 100; l := 50 |} ColorSwatch.key_l 30).
Proof.
  apply (edit_then_regenerate 0 samplePalette
           {| h := 120; s := 100; l := 50 |} ColorSwatch.key_l 30 thirds).
  - intros n. split; reflexivity || discriminate.
  - lia.
  - cbn. lia.
Defined.

End PaletteState.

(* ------------------------------------------------------------------ *)
(** ** Share links: what decoding returns *)

Section ShareLinks.

Import Random URLSearchParams.

Lemma upper_of_hex_char (c : ascii) :
  is_hex_char c = true -> is_upper_hex_char (upper_char c) = true.
Proof.
  destruct c as [[] [] [] [] [] [] [] []]; vm_compute; intros H;
    first [reflexivity | discriminate H].
Qed.

Lemma toUpperCase_length (t : string) :
  String.length (toUpperCase t) = String.length t.
Proof. induction t as [| c t IH]; cbn; [reflexivity | now rewrite IH]. Qed.

Lemma canonical_of_token (token : string) :
  is_hex6 token = true ->
  is_canonical_hex ("#" ++ toUpperCase token) = true.
Proof.
  unfold is_hex6. intros H. apply andb_true_iff in H. destruct H as [Hl Hc].
  cbn. rewrite toUpperCase_length, Hl. cbn.
  clear Hl. induction token as [| c t IH]; cbn in *; [reflexivity |].
  apply andb_true_iff in Hc. destruct Hc as [Hc Ht].
  now rewrite (upper_of_hex_char c Hc), (IH Ht).
Qed.

(** The palette that decoding returns, colour by colour. *)
Lemma decoded_palette (urlHash : string) (p : Palette) :
  decodePaletteFromUrl urlHash = Some p ->
  List.length p.(colors) = 5%nat
  /\ Forall (fun c => is_canonical_hex c.(hex) = true /\ rederive c = c)
            p.(colors).
Proof.
  intros Hdec. pose proof (decode_cases urlHash) as Hcases.
  rewrite Hdec in Hcases.
  destruct Hcases as (colorsParam & cs & _ & _ & Hlen & Hcs & Hcolors & _).
  apply decodeColors_some in Hcs. destruct Hcs as (Htok & Hspell & _).
  assert (Hsp : Forall2 spells (split "," colorsParam) p.(colors)).
  { rewrite Hcolors.
    destruct (get "locks" (paramsOf urlHash)) as [locksParam |]; [| exact Hspell].
    destruct (is_locks5 locksParam); [| exact Hspell].
    now apply applyLocks_spells. }
  split.
  - rewrite <- Hlen. symmetry. eapply Forall2_length; exact Hsp.
  - clear - Htok Hsp. induction Hsp as [| token c tokens cs' Hc _ IH];
      [constructor |].
    inversion Htok as [| ? ? Ht Hts]; subst.
    constructor; [| now apply IH].
    destruct Hc as (Ehex & Ergb & Ehsl). split.
    + rewrite Ehex. now apply canonical_of_token.
    + destruct c as [hx rg hs lk]. cbn [hex rgb hsl] in *.
      unfold rederive; cbn [hex rgb hsl locked]. now rewrite <- Ergb, <- Ehsl.
Qed.

(** X19. The palette state always starts with five colours: the palette of
    the URL hash when the hash decodes, and a random palette (with draws in
    [[0, 1)]) when it does not. *)
Theorem initial_palette_five (locationHash : string) (gen : rng)
    (Hg : unit_draws gen) :
  exists p,
    fst (UsePalette.initialPalette locationHash gen) = Some p
    /\ List.length p.(colors) = 5%nat.
Proof.
  unfold UsePalette.initialPalette.
  destruct (decodePaletteFromUrl locationHash) as [urlPalette |] eqn:Ed.
  - exists urlPalette. split; [reflexivity |].
    now apply (decoded_palette locationHash).
  - destruct (regeneration_general None gen Hg)
      as (rule & p' & E & _ & _ & _ & Hfive & _).
    exists p'. split; [exact E |]. apply Hfive. cbn. lia.
Qed.

Lemma initial_palette_five_witness :
  exists p,
    fst (UsePalette.initialPalette "#colors=FF0000,00FF00" thirds) = Some p
    /\ List.length p.(colors) = 5%nat.
Proof.
  apply (initial_palette_five "#colors=FF0000,00FF00" thirds).
  intros n. split; reflexivity || discriminate.
Defined.

Lemma map_rederive_fixed (cs : list Color) :
  Forall (fun c => is_canonical_hex c.(hex) = true /\ rederive c = c) cs ->
  map rederive cs = cs.
Proof.
  induction 1 as [| c cs [_ Hc] _ IH]; [reflexivity |].
  cbn. now rewrite Hc, IH.
Qed.

(** X20. A decoded palette is a fixed point of the share link: encoding a
    palette that [decodePaletteFromUrl] returned and decoding the result
    gives that palette again, RGB and HSL included. *)
Theorem decode_encode_decode (urlHash : string) (p : Palette)
    (Hdec : decodePaletteFromUrl urlHash = Some p) :
  decodePaletteFromUrl (encodePaletteToUrl p) = Some p.
Proof.
  destruct (decoded_palette urlHash p Hdec) as [Hlen Hcs].
  assert (Hhex : Forall (fun c => is_canonical_hex c.(hex) = true) p.(colors))
    by (eapply Forall_impl; [| exact Hcs]; now intros c [Hc _]).
  assert (E : decodePaletteFromUrl (encodePaletteToUrl p)
              = Some {| colors := map rederive p.(colors);
                        harmonyRule := p.(harmonyRule) |}).
  { unfold encodePaletteToUrl.
    destruct p.(harmonyRule) as [rule |] eqn:Er.
    - apply decode_serialized; try assumption; try reflexivity.
      cbn. discriminate.
    - apply decode_serialized; try assumption; try reflexivity.
      cbn. discriminate. }
  rewrite E, (map_rederive_fixed _ Hcs). now destruct p.
Qed.

Lemma decode_encode_decode_witness :
  exists p,
    decodePaletteFromUrl sampleHash = Some p
    /\ decodePaletteFromUrl (encodePaletteToUrl p) = Some p.
Proof.
  eexists. split; [vm_compute; reflexivity |].
  apply (decode_encode_decode sampleHash). vm_compute. reflexivity.
Defined.

Lemma applyLocks_flags (locksParam : string) (cs : list Color) :
  List.length cs = 5%nat ->
  forall i, (i < 5)%nat ->
            lockedAt (applyLocks locksParam cs) i = lockBit locksParam i.
Proof.
  intros Hlen i Hi.
  destruct cs as [| c1 [| c2 [| c3 [| c4 [| c5 [| c6 cs]]]]]];
    try discriminate Hlen.
  destruct i as [| [| [| [| [| i]]]]]; try lia; reflexivity.
Qed.

(** X21. A well-formed [locks] value and a known [harmony] value are
    applied: in the palette decoded from a hash whose [locks] value is five
    binary digits, slot [i] is locked exactly when digit [i] is [1]; and
    when the [harmony] value is the name of a rule, that rule is the
    palette's. *)
Theorem decode_applies_locks (urlHash : string) (p : Palette)
    (Hdec : decodePaletteFromUrl urlHash = Some p) :
  (forall locksParam,
      get "locks" (paramsOf urlHash) = Some locksParam ->
      is_locks5 locksParam = true ->
      forall i, (i < 5)%nat ->
                lockedAt p.(colors) i = lockBit locksParam i)
  /\ (forall rule,
        get "harmony" (paramsOf urlHash) = Some (rule_name rule) ->
        p.(harmonyRule) = Some rule).
Proof.
  pose proof (decode_cases urlHash) as Hcases. rewrite Hdec in Hcases.
  destruct Hcases as (colorsParam & cs & _ & _ & Hlen & Hcs & Hcolors & Hrule).
  split.
  - intros locksParam Hget Hok i Hi. rewrite Hget, Hok in Hcolors.
    rewrite Hcolors. apply applyLocks_flags; [| exact Hi].
    apply decodeColors_some in Hcs. destruct Hcs as (_ & Hspell & _).
    rewrite <- Hlen. symmetry. eapply Forall2_length; exact Hspell.
  - intros rule Hget. rewrite Hget in Hrule. rewrite Hrule.
    apply ruleOfName_rule_name.
Qed.

Lemma decode_applies_locks_witness :
  exists p,
    decodePaletteFromUrl sampleHash = Some p
    /\ (forall i, (i < 5)%nat -> lockedAt p.(colors) i = lockBit "10101" i)
    /\ p.(harmonyRule) = Some triadic.
Proof.
  eexists. split; [vm_compute; reflexivity |].
  match goal with
  | |- (forall i, _ -> lockedAt (colors ?q) i = _) /\ _ =>
      destruct (decode_applies_locks sampleHash q) as [Hlocks Hrule]
  end.
  - vm_compute. reflexivity.
  - split.
    + apply (Hlocks "10101"); reflexivity.
    + apply Hrule. reflexivity.
Defined.

End ShareLinks.

(* ------------------------------------------------------------------ *)
(** ** Share links: the text that encoding writes *)

Section ShareLinkText.

Import URLSearchParams.

Lemma encode_app (a b : string) : encode (a ++ b) = encode a ++ encode b.
Proof.
  induction a as [| c a IH]; cbn [append encode]; [reflexivity |].
  now rewrite IH, append_assoc.
Qed.

Lemma encode_unreserved (t : string) :
  string_forallb is_unreserved t = true -> encode t = t.
Proof.
  induction t as [| c t IH]; cbn; [reflexivity |].
  intros H. apply andb_true_iff in H. destruct H as [Hc Ht].
  unfold encode_byte. now rewrite Hc, (IH Ht).
Qed.

Lemma join_forallb (p : ascii -> bool) (sep : string) (xs : list string) :
  string_forallb p sep = true ->
  Forall (fun x => string_forallb p x = true) xs ->
  string_forallb p (join sep xs) = true.
Proof.
  intros Hsep H. induction H as [| x xs Hx _ IH]; [reflexivity |].
  destruct xs as [| y ys]; [exact Hx |].
  change (join sep (x :: y :: ys)) with (x ++ sep ++ join sep (y :: ys)).
  now rewrite !forallb_app, Hx, Hsep, IH.
Qed.

Lemma encode_join_comma (tokens : list string) :
  Forall (fun t => string_forallb is_unreserved t = true) tokens ->
  encode (join "," tokens) = join "%2C" tokens.
Proof.
  induction 1 as [| t ts Ht _ IH]; [reflexivity |].
  destruct ts as [| u us]; [now apply encode_unreserved |].
  change (join "," (t :: u :: us)) with (t ++ "," ++ join "," (u :: us)).
  change (join "%2C" (t :: u :: us)) with (t ++ "%2C" ++ join "%2C" (u :: us)).
  rewrite !encode_app, IH, (encode_unreserved t Ht). reflexivity.
Qed.

Lemma upper_hex_unreserved (c : ascii) :
  is_upper_hex_char c = true -> is_unreserved c = true.
Proof.
  destruct c as [[] [] [] [] [] [] [] []]; vm_compute; intros H;
    first [reflexivity | discriminate H].
Qed.

Lemma canonical_token_unreserved (c : Color) :
  is_canonical_hex c.(hex) = true ->
  string_forallb is_unreserved (remove_first_hash c.(hex)) = true.
Proof.
  intros Hc. apply canonical_hex_inv in Hc.
  destruct Hc as (token & -> & _ & Hu).
  cbn [remove_first_hash]. rewrite Ascii.eqb_refl.
  apply forallb_weaken with (p := is_upper_hex_char); [| exact Hu].
  apply upper_hex_unreserved.
Qed.

Lemma encode_locks (cs : list Color) :
  encode (join "" (map (fun c : Color => if c.(locked) then "1" else "0") cs))
  = join "" (map (fun c : Color => if c.(locked) then "1" else "0") cs).
Proof.
  apply encode_unreserved, join_forallb; [reflexivity |].
  apply Forall_map, Forall_forall. intros c _. now destruct (locked c).
Qed.

(** X22. The text of a share link. For a palette whose colours have a hex
    of the form [#RRGGBB], [encodePaletteToUrl] writes [colors=] and the
    hex digits of the colours separated by [%2C] (the comma, escaped), then
    [&locks=] and one binary digit per colour, then, when there is a rule,
    [&harmony=] and its name. *)
Theorem encode_text (p : Palette)
    (Hhex : Forall (fun c => is_canonical_hex c.(hex) = true) p.(colors)) :
  encodePaletteToUrl p
  = "colors="
    ++ join "%2C" (map (fun c => remove_first_hash c.(hex)) p.(colors))
    ++ "&locks="
    ++ join "" (map (fun c : Color => if c.(locked) then "1" else "0")
                    p.(colors))
    ++ match p.(harmonyRule) with
       | Some rule => "&harmony=" ++ rule_name rule
       | None => ""
       end.
Proof.
  assert (Ecolors :
    encode (join "," (map (fun c => remove_first_hash c.(hex)) p.(colors)))
    = join "%2C" (map (fun c => remove_first_hash c.(hex)) p.(colors))).
  { apply encode_join_comma, Forall_map.
    eapply Forall_impl; [| exact Hhex]. apply canonical_token_unreserved. }
  assert (Enil : forall t : string, t ++ "" = t)
    by (induction t as [| c t IH]; cbn; [reflexivity | now rewrite IH]).
  unfold encodePaletteToUrl.
  destruct p.(harmonyRule) as [rule |];
    cbn [set String.eqb Ascii.eqb Bool.eqb toString map join fst snd];
    rewrite Ecolors, encode_locks;
    change (encode "colors") with "colors";
    change (encode "locks") with "locks".
  - replace (encode (rule_name rule)) with (rule_name rule)
      by (now destruct rule).
    change (encode "harmony") with "harmony".
    rewrite !append_assoc. cbn [append]. reflexivity.
  - rewrite !append_assoc. cbn [append]. now rewrite Enil.
Qed.

Lemma encode_text_witness :
  encodePaletteToUrl samplePalette
  = "colors="
    ++ join "%2C" (map (fun c => remove_first_hash c.(hex))
                       samplePalette.(colors))
    ++ "&locks="
    ++ join "" (map (fun c : Color => if c.(locked) then "1" else "0")
                    samplePalette.(colors))
    ++ match samplePalette.(harmonyRule) with
       | Some rule => "&harmony=" ++ rule_name rule
       | None => ""
       end.
Proof.
  apply (encode_text samplePalette). repeat constructor.
Defined.

End ShareLinkText.

(* ------------------------------------------------------------------ *)
(** ** Luminance and the WCAG levels *)

Section Levels.

Local Open Scope R_scope.

(** X23. The relative luminance of an RGB value whose channels lie in
    [[0, 255]] is a number of [[0, 1]]. *)
Theorem relative_luminance_unit (c : RGB) (Hc : rgb_in_gamut c) :
  exists lum, getRelativeLuminance c = Some lum /\ 0 <= lum <= 1.
Proof. now apply luminance_range. Qed.

Lemma relative_luminance_unit_witness :
  exists lum, getRelativeLuminance (rgbOf 12 200 99) = Some lum
              /\ 0 <= lum <= 1.
Proof.
  apply (relative_luminance_unit (rgbOf 12 200 99)).
  unfold rgb_in_gamut, num_between, Qle; simpl; lia.
Defined.

(** X24. A ratio that meets the AAA level meets the AA level. *)
Theorem meets_AAA_meets_AA (ratio : R) (H : meetsWCAG_AAA ratio) :
  meetsWCAG_AA ratio.
Proof. unfold meetsWCAG_AAA, meetsWCAG_AA in *. lra. Qed.

Lemma meets_AAA_meets_AA_witness : meetsWCAG_AA 21.
Proof.
  apply (meets_AAA_meets_AA 21). unfold meetsWCAG_AAA. lra.
Defined.

(** X25. A colour has no contrast with itself: for channels in
    [[0, 255]] the ratio of a colour against itself is 1, which meets
    neither level. *)
Theorem no_contrast_with_itself (c : RGB) (Hc : rgb_in_gamut c) :
  exists ratio,
    calculateContrastRatio c c = Some ratio
    /\ ratio = 1
    /\ ~ meetsWCAG_AA ratio /\ ~ meetsWCAG_AAA ratio.
Proof.
  destruct (luminance_range c Hc) as (lum & E & Hl).
  unfold calculateContrastRatio. rewrite E.
  eexists. split; [reflexivity |].
  assert (E1 : (Rmax lum lum + 0.05) / (Rmin lum lum + 0.05) = 1).
  { unfold Rmax, Rmin. destruct (Rle_dec lum lum); field; lra. }
  rewrite E1. unfold meetsWCAG_AA, meetsWCAG_AAA. repeat split; lra.
Qed.

Lemma no_contrast_with_itself_witness :
  exists ratio,
    calculateContrastRatio (rgbOf 12 200 99) (rgbOf 12 200 99) = Some ratio
    /\ ratio = 1
    /\ ~ meetsWCAG_AA ratio /\ ~ meetsWCAG_AAA ratio.
Proof.
  apply (no_contrast_with_itself (rgbOf 12 200 99)).
  unfold rgb_in_gamut, num_between, Qle; simpl; lia.
Defined.

End Levels.

(* ------------------------------------------------------------------ *)
(** ** More on [rgbToHsl] and on the hues of the palettes *)

Section MoreHues.

(** X26. For every RGB value without [NaN], in range or not, integral or
    not, [rgbToHsl] returns integers: a hue of [[0, 360]], a saturation and a
    lightness of [[0, 100]]. *)
Theorem rgbToHsl_any_finite (c : RGB)
    (Hr : finite c.(r)) (Hg : finite c.(g)) (Hb : finite c.(b)) :
  int_between 0 360 (rgbToHsl c).(h)
  /\ int_between 0 100 (rgbToHsl c).(s)
  /\ int_between 0 100 (rgbToHsl c).(l).
Proof.
  destruct c as [cr cg cb]. cbn [r g b] in Hr, Hg, Hb.
  destruct Hr as [qr ->], Hg as [qg ->], Hb as [qb ->].
  apply rgbToHsl_fin.
Qed.

Lemma rgbToHsl_any_finite_witness :
  int_between 0 360 (rgbToHsl {| r := 300; g := -10; b := Fin (5 # 2) |}).(h)
  /\ int_between 0 100
       (rgbToHsl {| r := 300; g := -10; b := Fin (5 # 2) |}).(s)
  /\ int_between 0 100
       (rgbToHsl {| r := 300; g := -10; b := Fin (5 # 2) |}).(l).
Proof.
  apply (rgbToHsl_any_finite {| r := 300; g := -10; b := Fin (5 # 2) |});
    eexists; reflexivity.
Defined.



(** The hue that [normalizeHue] gives to a hue [k] turns from [[0, 360)]. *)
Lemma normalizeHue_turns (x : Q) (k : Z) :
  (360 * inject_Z k <= x)%Q -> (x < 360 * inject_Z k + 360)%Q ->
  exists y, normalizeHue (Fin x) = Fin y /\ (y == x - 360 * inject_Z k)%Q.
Proof.
  intros Hlo Hhi.
  destruct (normalizeHue_any x) as (y & k' & -> & E & H0 & H1).
  exists y. split; [reflexivity |].
  assert (Hk : k' = k).
  { assert (H2 : (inject_Z k' < inject_Z (k + 1))%Q).
    { rewrite inject_Z_plus. change (inject_Z 1) with 1%Q.
      set (t := inject_Z k) in *. set (t' := inject_Z k') in *.
      clearbody t t'. lra. }
    assert (H3 : (inject_Z k < inject_Z (k' + 1))%Q).
    { rewrite inject_Z_plus. change (inject_Z 1) with 1%Q.
      set (t := inject_Z k) in *. set (t' := inject_Z k') in *.
      clearbody t t'. lra. }
    rewrite <- Zlt_Qlt in H2, H3. lia. }
  now subst k'.
Qed.



(** X29. [NaN] goes through [rgbToHsl]: if a channel is [NaN] (as for a
    string that [hexToRgb] could not read), the result has hue 0 and [NaN]
    for saturation and lightness. *)
Theorem rgbToHsl_nan (c : RGB)
    (Hnan : c.(r) = NaN \/ c.(g) = NaN \/ c.(b) = NaN) :
  rgbToHsl c = {| h := 0; s := NaN; l := NaN |}.
Proof.
  destruct c as [cr cg cb]. cbn [r g b] in Hnan.
  unfold rgbToHsl. cbn [r g b].
  assert (Hch : forall x, x = NaN \/ finite x ->
            (clamp x 0 255 / 255)%num = NaN
            \/ exists u, (clamp x 0 255 / 255)%num = Fin u).
  { intros x [-> | [q ->]]; [left; reflexivity | right].
    destruct (unit_channel q) as (u & -> & _). now exists u. }
  assert (Hfin : forall x : number, x = NaN \/ finite x).
  { intros [| q]; [now left | right; now exists q]. }
  destruct Hnan as [-> | [-> | ->]].
  - change (clamp NaN 0 255 / 255)%num with NaN.
    destruct (Hch cg (Hfin cg)) as [-> | [u ->]];
      destruct (Hch cb (Hfin cb)) as [-> | [v ->]]; reflexivity.
  - change (clamp NaN 0 255 / 255)%num with NaN.
    destruct (Hch cr (Hfin cr)) as [-> | [u ->]];
      destruct (Hch cb (Hfin cb)) as [-> | [v ->]]; reflexivity.
  - change (clamp NaN 0 255 / 255)%num with NaN.
    destruct (Hch cr (Hfin cr)) as [-> | [u ->]];
      destruct (Hch cg (Hfin cg)) as [-> | [v ->]];
      try reflexivity.
    all: unfold Math_max3, Math_min3;
      destruct (Math_max_fin u v) as (m & -> & _);
      destruct (Math_min_fin u v) as (n & -> & _); reflexivity.
Qed.

Lemma rgbToHsl_nan_witness :
  rgbToHsl (hexToRgb "#12zz56") = {| h := 0; s := NaN; l := NaN |}.
Proof.
  apply (rgbToHsl_nan (hexToRgb "#12zz56")). right. left. reflexivity.
Defined.

End MoreHues.
